(** * Movie viewer: the review subsystem

    A shallow embedding of the review logic of the generic [Home] page
    component, which the comedy and horror pages repeat line for line:
    [loadReviewsFromLocalStorage], [saveReviewsToLocalStorage],
    [handleReviewSubmit], [handleRatingChange], [renderStars] and
    [sortedReviews].  (The older horror page under [app/horror] has the same
    store and handlers and lists the reviews unsorted, without stars.)

    - [Module JS]: the platform pieces the code calls (numbers, [Array],
      [Array.prototype.sort], [JSON], [localStorage]);
    - [Module Page]: the component;
    - [Module Spec]: the vocabulary of the theorems;
    - [JSFacts], [Stars], [Submit], [Sorting], [Json], [Store]: the proofs. *)

From Stdlib Require Import ZArith QArith Qround Lqa Ascii String List Lia Bool.
From Stdlib Require Import Sorting.Sorted Sorting.Permutation.
From stdpp Require Import base option list strings gmap.

Set Warnings "-register-all".

(* ===================================================================== *)
(** * The JavaScript platform *)
(* ===================================================================== *)

Module JS.

(** ** Exceptions and results *)

Inductive exn : Type :=
  | RangeError   (* "Invalid array length" *)
  | SyntaxError  (* JSON.parse on malformed text *)
  | TypeError.   (* a value outside the declared TypeScript type is used *)

Inductive result (A : Type) : Type :=
  | Ok (a : A)
  | Throw (e : exn).
Arguments Ok {A} a.
Arguments Throw {A} e.

Definition bind {A B} (r : result A) (k : A -> result B) : result B :=
  match r with
  | Ok a => k a
  | Throw e => Throw e
  end.

Notation "x <- r ;;; k" := (bind r (fun x => k))
  (at level 100, r at next level, right associativity, only parsing).

(** ** Numbers

    A JavaScript number is modelled by its exact decimal value
    [mant / 10^scale], kept in lowest terms so that equal numbers are equal
    terms.  Every finite IEEE double has such a value; rounding, [NaN], the
    infinities and the sign of zero are outside the model. *)

Definition canonical (m : Z) (k : nat) : bool :=
  match k with
  | O => true
  | S _ => negb (m mod 10 =? 0)%Z
  end.

Record number : Type := Num {
  mant : Z;
  scale : nat;
  number_canonical : Is_true (canonical mant scale)
}.

(** Strip trailing zeros of the fractional part. *)
Fixpoint normalize (m : Z) (k : nat) : number :=
  match k with
  | O => Num m 0 I
  | S k' =>
      (if (m mod 10 =? 0)%Z as b return (Is_true (negb b) -> number) -> number
       then fun _ => normalize (m / 10) k'
       else fun mk => mk I) (Num m (S k'))
  end.

Definition of_Z (z : Z) : number := Num z 0 I.

Definition pow10 (k : nat) : Z := (10 ^ Z.of_nat k)%Z.

(** The rational the number denotes. *)
Definition num_val (x : number) : Q := mant x # Z.to_pos (pow10 (scale x)).

(** [x < y], [x <= y] and [x >= y] on numbers. *)
Definition num_ltb (x y : number) : bool :=
  (mant x * pow10 (scale y) <? mant y * pow10 (scale x))%Z.
Definition num_leb (x y : number) : bool :=
  (mant x * pow10 (scale y) <=? mant y * pow10 (scale x))%Z.
Definition num_gtb (x y : number) : bool := num_ltb y x.
Definition num_geb (x y : number) : bool := num_leb y x.

(** [x - y]. *)
Definition num_sub (x y : number) : number :=
  normalize (mant x * pow10 (scale y) - mant y * pow10 (scale x))
            (scale x + scale y).

(** [x % y]: the remainder of the truncating division, with the sign of the
    dividend.  The code only ever divides by the literal [1]. *)
Definition num_rem (x y : number) : number :=
  normalize (Z.rem (mant x * pow10 (scale y)) (mant y * pow10 (scale x)))
            (scale x + scale y).

(** [Math.floor]; an integer-valued number is kept as a [Z]. *)
Definition Math_floor (x : number) : Z := (mant x / pow10 (scale x))%Z.

(** [Math.max] on integer-valued numbers. *)
Definition Math_max (a b : Z) : Z := Z.max a b.

(** ** Arrays *)

(** [Array(len)]: an array of [len] empty slots; a [RangeError] unless [len]
    is an integer in [0, 2^32 - 1]. *)
Definition Array_ (len : Z) : result (list unit) :=
  if ((0 <=? len) && (len <=? 2 ^ 32 - 1))%Z
  then Ok (replicate (Z.to_nat len) tt)
  else Throw RangeError.

(** [a.fill(v)] *)
Definition fill {A B} (v : B) (a : list A) : list B := map (fun _ => v) a.

(** [a.map((_, i) => f(i))] *)
Definition mapi {A B} (f : nat -> B) (a : list A) : list B :=
  imap (fun i _ => f i) a.


(** ** Strings and number literals

    A string is the sequence of its bytes (UTF-8); every character the
    JSON grammar singles out is a single byte. *)

Definition is_digit (c : ascii) : bool :=
  let n := nat_of_ascii c in (48 <=? n)%nat && (n <=? 57)%nat.
Definition digit_val (c : ascii) : Z := Z.of_nat (nat_of_ascii c) - 48.
Definition digit_char (d : Z) : ascii := ascii_of_nat (Z.to_nat d + 48).

(** The [k] low decimal digits of [n], most significant first. *)
Fixpoint fixed (k : nat) (n : Z) : string :=
  match k with
  | O => EmptyString
  | S k' => String (digit_char ((n / pow10 k') mod 10)) (fixed k' n)
  end.

(** How many decimal digits [n >= 0] has (one for zero). *)
Fixpoint ndigits_aux (fuel : nat) (n : Z) : nat :=
  match fuel with
  | O => 1
  | S fuel' => if (n <? 10)%Z then 1 else S (ndigits_aux fuel' (n / 10))
  end.
Definition ndigits (n : Z) : nat := ndigits_aux (Z.to_nat (Z.log2 n)) n.

(** [Number::toString] for radix 10: used by template literals and by
    [JSON.stringify].  Always positional; the exponent form that engines
    switch to beyond 1e21 or below 1e-6 denotes the same number and is not
    reproduced. *)
Definition Number_toString (x : number) : string :=
  let a := Z.abs (mant x) in
  let ip := (a / pow10 (scale x))%Z in
  (if (mant x <? 0)%Z then "-" else "") +:+
  fixed (ndigits ip) ip +:+
  match scale x with
  | O => ""
  | S _ => "." +:+ fixed (scale x) a
  end.

(** Read a maximal run of digits, accumulating its value and its length. *)
Fixpoint read_digits (s : string) (acc : Z) (cnt : nat) : Z * nat * string :=
  match s with
  | String c s' =>
      if is_digit c then read_digits s' (acc * 10 + digit_val c) (S cnt)
      else (acc, cnt, s)
  | EmptyString => (acc, cnt, s)
  end.

Definition starts_with (c : ascii) (s : string) : bool :=
  match s with
  | String c' _ => Ascii.eqb c c'
  | EmptyString => false
  end.

(** The JSON number grammar: [-? int frac? exp?], where [int] has no
    leading zero. *)
Definition strip_minus (s : string) : bool * string :=
  match s with
  | String c s' => if Ascii.eqb c "-" then (true, s') else (false, s)
  | EmptyString => (false, s)
  end.

Definition parse_int (s : string) : option (Z * string) :=
  let '(ip, c, s') := read_digits s 0 0 in
  if (c =? 0)%nat then None
  else if (1 <? c)%nat && starts_with "0" s then None
  else Some (ip, s').

(** The digits after the point extend the mantissa and count as scale. *)
Definition parse_frac (ip : Z) (s : string) : option (Z * nat * string) :=
  match s with
  | String c s' =>
      if Ascii.eqb c "." then
        let '(m, k, s'') := read_digits s' ip 0 in
        if (k =? 0)%nat then None else Some (m, k, s'')
      else Some (ip, O, s)
  | EmptyString => Some (ip, O, s)
  end.

Definition parse_exp (s : string) : option (Z * string) :=
  match s with
  | String e s' =>
      if Ascii.eqb e "e" || Ascii.eqb e "E" then
        let '(eneg, s'') :=
          match s' with
          | String c t =>
              if Ascii.eqb c "-" then (true, t)
              else if Ascii.eqb c "+" then (false, t)
              else (false, s')
          | EmptyString => (false, s')
          end in
        let '(ev, ec, t) := read_digits s'' 0 0 in
        if (ec =? 0)%nat then None
        else Some (if eneg then (- ev)%Z else ev, t)
      else Some (0%Z, s)
  | EmptyString => Some (0%Z, s)
  end.

(** The number [(-1)^neg * m * 10^(ex - k)]. *)
Definition make_number (neg : bool) (m : Z) (k : nat) (ex : Z) : number :=
  let m' := if neg then (- m)%Z else m in
  let e' := (Z.of_nat k - ex)%Z in
  if (e' <=? 0)%Z then of_Z (m' * 10 ^ (- e'))
  else normalize m' (Z.to_nat e').

Definition parse_number (s : string) : option (number * string) :=
  let '(neg, s1) := strip_minus s in
  '(ip, s2) ← parse_int s1;
  '(m, k, s3) ← parse_frac ip s2;
  '(ex, s4) ← parse_exp s3;
  Some (make_number neg m k ex, s4).

(** ** JSON values *)

Inductive jsval : Type :=
  | JNull
  | JBool (b : bool)
  | JNum (n : number)
  | JStr (s : string)
  | JArr (l : list jsval)
  | JObj (l : list (string * jsval)).

Definition hex_char (n : N) : ascii :=
  if (n <? 10)%N then ascii_of_N (48 + n) else ascii_of_N (87 + n).

Definition hex_val (c : ascii) : option N :=
  let n := N_of_ascii c in
  if ((48 <=? n) && (n <=? 57))%N then Some (n - 48)%N
  else if ((97 <=? n) && (n <=? 102))%N then Some (n - 87)%N
  else if ((65 <=? n) && (n <=? 70))%N then Some (n - 55)%N
  else None.

(** [QuoteJSONString], one character at a time. *)
Definition escape_char (c : ascii) : string :=
  match c with
  | "034"%char => String "\" (String "034" "")
  | "\"%char => "\\"
  | "008"%char => "\b"
  | "012"%char => "\f"
  | "010"%char => "\n"
  | "013"%char => "\r"
  | "009"%char => "\t"
  | _ =>
      let n := N_of_ascii c in
      if (n <? 32)%N
      then "\u00" +:+ String (hex_char (n / 16)) (String (hex_char (n mod 16)) "")
      else String c ""
  end.

Fixpoint escape (s : string) : string :=
  match s with
  | EmptyString => ""
  | String c s' => escape_char c +:+ escape s'
  end.

Definition quote (s : string) : string :=
  String "034" (escape s +:+ String "034" "").

(** The bytes of the code unit a [\uXXXX] escape names. *)
Definition utf8 (n : N) : string :=
  if (n <? 128)%N then String (ascii_of_N n) ""
  else if (n <? 2048)%N then
    String (ascii_of_N (192 + n / 64)) (String (ascii_of_N (128 + n mod 64)) "")
  else
    String (ascii_of_N (224 + n / 4096))
      (String (ascii_of_N (128 + (n / 64) mod 64))
         (String (ascii_of_N (128 + n mod 64)) "")).

Definition simple_escape (e : ascii) : option ascii :=
  match e with
  | "034"%char => Some "034"%char
  | "\"%char => Some "\"%char
  | "/"%char => Some "/"%char
  | "b"%char => Some "008"%char
  | "f"%char => Some "012"%char
  | "n"%char => Some "010"%char
  | "r"%char => Some "013"%char
  | "t"%char => Some "009"%char
  | _ => None
  end.

Definition prepend (p : string) (r : option (string * string))
  : option (string * string) :=
  '(t, rest) ← r; Some (p +:+ t, rest).

(** The characters of a string literal after its opening quote, up to and
    including the closing quote. *)
Fixpoint parse_string_body (s : string) : option (string * string) :=
  match s with
  | EmptyString => None
  | String c s1 =>
      if Ascii.eqb c "034" then Some ("", s1)
      else if Ascii.eqb c "\" then
        match s1 with
        | String e s2 =>
            match simple_escape e with
            | Some c' => prepend (String c' "") (parse_string_body s2)
            | None =>
                if Ascii.eqb e "u" then
                  match s2 with
                  | String h1 (String h2 (String h3 (String h4 s3))) =>
                      match hex_val h1, hex_val h2, hex_val h3, hex_val h4 with
                      | Some a, Some b, Some c, Some d =>
                          prepend (utf8 (((a * 16 + b) * 16 + c) * 16 + d)%N)
                                  (parse_string_body s3)
                      | _, _, _, _ => None
                      end
                  | _ => None
                  end
                else None
            end
        | EmptyString => None
        end
      else if (N_of_ascii c <? 32)%N then None
      else prepend (String c "") (parse_string_body s1)
  end.

Definition is_ws (c : ascii) : bool :=
  Ascii.eqb c " " || Ascii.eqb c "009" || Ascii.eqb c "010" || Ascii.eqb c "013".

Fixpoint skip_ws (s : string) : string :=
  match s with
  | String c s' => if is_ws c then skip_ws s' else s
  | EmptyString => s
  end.

Fixpoint strip_prefix (p s : string) : option string :=
  match p, s with
  | EmptyString, _ => Some s
  | String a p', String b s' => if Ascii.eqb a b then strip_prefix p' s' else None
  | String _ _, EmptyString => None
  end.

(** Setting a property: a repeated key keeps its place and takes the last
    value.  (The reordering of integer-like keys is not reproduced.) *)
Fixpoint obj_set (k : string) (v : jsval) (l : list (string * jsval))
  : list (string * jsval) :=
  match l with
  | [] => [(k, v)]
  | (k', v') :: l' =>
      if String.eqb k k' then (k, v) :: l' else (k', v') :: obj_set k v l'
  end.

(** Recursive descent over the JSON grammar.  Every call consumes one unit
    of [fuel]; [JSON_parse] supplies enough for the whole text. *)
Fixpoint parse_value (fuel : nat) (s : string) : option (jsval * string) :=
  match fuel with
  | O => None
  | S fuel =>
      match skip_ws s with
      | String "{" s1 =>
          match skip_ws s1 with
          | String "}" s2 => Some (JObj [], s2)
          | _ => parse_members fuel s1 []
          end
      | String "[" s1 =>
          match skip_ws s1 with
          | String "]" s2 => Some (JArr [], s2)
          | _ => parse_elements fuel s1 []
          end
      | String "034" s1 =>
          '(t, s2) ← parse_string_body s1; Some (JStr t, s2)
      | String "t" _ => s1 ← strip_prefix "true" (skip_ws s); Some (JBool true, s1)
      | String "f" _ => s1 ← strip_prefix "false" (skip_ws s); Some (JBool false, s1)
      | String "n" _ => s1 ← strip_prefix "null" (skip_ws s); Some (JNull, s1)
      | _ => '(n, s1) ← parse_number (skip_ws s); Some (JNum n, s1)
      end
  end
with parse_elements (fuel : nat) (s : string) (acc : list jsval)
  : option (jsval * string) :=
  match fuel with
  | O => None
  | S fuel =>
      '(v, s1) ← parse_value fuel s;
      match skip_ws s1 with
      | String "," s2 => parse_elements fuel s2 (acc ++ [v])
      | String "]" s2 => Some (JArr (acc ++ [v]), s2)
      | _ => None
      end
  end
with parse_members (fuel : nat) (s : string) (acc : list (string * jsval))
  : option (jsval * string) :=
  match fuel with
  | O => None
  | S fuel =>
      match skip_ws s with
      | String "034" s1 =>
          '(k, s2) ← parse_string_body s1;
          match skip_ws s2 with
          | String ":" s3 =>
              '(v, s4) ← parse_value fuel s3;
              match skip_ws s4 with
              | String "," s5 => parse_members fuel s5 (obj_set k v acc)
              | String "}" s5 => Some (JObj (obj_set k v acc), s5)
              | _ => None
              end
          | _ => None
          end
      | _ => None
      end
  end.

(** [JSON.parse]: one value, optionally surrounded by white space, and
    nothing else; a [SyntaxError] otherwise. *)
Definition JSON_parse (text : string) : result jsval :=
  match parse_value (2 * String.length text + 2) text with
  | Some (v, rest) =>
      match skip_ws rest with
      | EmptyString => Ok v
      | String _ _ => Throw SyntaxError
      end
  | None => Throw SyntaxError
  end.

(** [JSON.stringify] without indentation. *)
Fixpoint JSON_stringify (v : jsval) : string :=
  match v with
  | JNull => "null"
  | JBool true => "true"
  | JBool false => "false"
  | JNum n => Number_toString n
  | JStr s => quote s
  | JArr l =>
      "[" +:+
      (fix elements (l : list jsval) : string :=
         match l with
         | [] => ""
         | [x] => JSON_stringify x
         | x :: l' => JSON_stringify x +:+ "," +:+ elements l'
         end) l +:+ "]"
  | JObj l =>
      "{" +:+
      (fix members (l : list (string * jsval)) : string :=
         match l with
         | [] => ""
         | [(k, x)] => quote k +:+ ":" +:+ JSON_stringify x
         | (k, x) :: l' => quote k +:+ ":" +:+ JSON_stringify x +:+ "," +:+ members l'
         end) l +:+ "}"
  end.

(** ** Local storage: the origin's key-value store, strings to strings.
    The storage quota is not modelled: [setItem] always succeeds. *)

Definition getItem (ls : gmap string string) (key : string) : option string :=
  ls !! key.

Definition setItem (ls : gmap string string) (key value : string)
  : gmap string string :=
  <[key := value]> ls.

(** ** Objects, and arrays that are mutated in place *)

(** A heap-allocated object: the address that is its identity, and its
    fields (the code never mutates a review once it is built). *)
Record obj (A : Type) : Type := Obj { addr : nat; fields : A }.
Arguments Obj {A} addr fields.
Arguments addr {A} o.
Arguments fields {A} o.

(** [a.indexOf(x)]: strict equality, which on objects compares references. *)
Fixpoint indexOf_from {A} (a : list (obj A)) (x : obj A) (i : Z) : Z :=
  match a with
  | [] => (-1)%Z
  | y :: a' => if (addr y =? addr x)%nat then i else indexOf_from a' x (i + 1)
  end.
Definition indexOf {A} (a : list (obj A)) (x : obj A) : Z := indexOf_from a x 0.

(** [Array.prototype.sort] is stable, and for a consistent comparator its
    result does not depend on the engine's algorithm; insertion is the
    simplest stable one.  [cmp a b > 0] puts [a] after [b]. *)
Fixpoint insert {A} (cmp : A -> A -> number) (x : A) (l : list A) : list A :=
  match l with
  | [] => [x]
  | y :: l' => if num_gtb (cmp x y) (of_Z 0) then y :: insert cmp x l' else x :: l
  end.

Fixpoint sort {A} (cmp : A -> A -> number) (l : list A) : list A :=
  match l with
  | [] => []
  | x :: l' => insert cmp x (sort cmp l')
  end.

(** The arrays allocated so far; an array reference is an index in it. *)
Definition store (A : Type) : Type := list (list A).

Definition deref {A} (h : store A) (a : nat) : list A := default [] (h !! a).

(** [[...a]]: a fresh array with the same elements. *)
Definition spread {A} (a : nat) (h : store A) : nat * store A :=
  (length h, h ++ [deref h a]).

(** [a.sort(cmp)]: sorts the array [a] in place and returns [a] itself.
    The comparator may read other arrays of the store. *)
Definition Array_sort {A} (cmp : store A -> A -> A -> number) (a : nat)
  (h : store A) : nat * store A :=
  (a, alter (sort (cmp h)) a h).

End JS.

(* ===================================================================== *)
(** * The page component *)
(* ===================================================================== *)

Module Page.
Import JS.

(** The three icons of [react-icons/fa] that [renderStars] emits. *)
Inductive glyph : Type :=
  | FaStar          (* full star *)
  | FaStarHalfAlt   (* half star *)
  | FaRegStar.      (* empty star *)

#[export] Instance glyph_eq_dec : EqDecision glyph.
Proof. solve_decision. Defined.

Definition half : number := Num 5 1 I.   (* the literal 0.5 *)
Definition one : number := of_Z 1.
Definition ten : number := of_Z 10.

(** [renderStars]: the fragment's children, left to right. *)
Definition renderStars (rating : number) : result (list glyph) :=
  let fullStars := Math_floor rating in
  let hasHalfStar := num_geb (num_rem rating one) half in
  let emptyStars :=
    Math_max 0 (10 - fullStars - (if hasHalfStar then 1 else 0))%Z in
  full <- Array_ fullStars ;;;
  let full := mapi (fun _ => FaStar) (fill 0%Z full) in
  let halfStar := if hasHalfStar then [FaStarHalfAlt] else [] in
  empty <- Array_ emptyStars ;;;
  let empty := mapi (fun _ => FaRegStar) (fill 0%Z empty) in
  Ok (full ++ halfStar ++ empty).

(** ** The data model *)

Module Movie.
Record t : Type := {
  id : number;
  title : string;
  overview : string;
  poster_path : string;
  vote_average : number
}.
End Movie.

Module Review.
Record t : Type := {
  rating : number;
  comment : string
}.
End Review.

Inductive SortOption : Type := newest | highest | lowest.
Inductive Tab : Type := details | reviewsTab.

(** A review as the JavaScript object [{rating, comment}]. *)
Definition review_to_js (r : Review.t) : jsval :=
  JObj [("rating", JNum (Review.rating r)); ("comment", JStr (Review.comment r))].

Definition reviews_to_js (reviews : list (obj Review.t)) : jsval :=
  JArr (map (fun o => review_to_js (fields o)) reviews).

Fixpoint get_property (k : string) (l : list (string * jsval)) : option jsval :=
  match l with
  | [] => None
  | (k', v) :: l' => if String.eqb k k' then Some v else get_property k l'
  end.

(** The unchecked cast of a parsed value to [Review[]]: the value has that
    type when it is an array of objects with a numeric [rating] and a string
    [comment]. *)
Definition as_Review (v : jsval) : option Review.t :=
  match v with
  | JObj l =>
      match get_property "rating" l, get_property "comment" l with
      | Some (JNum r), Some (JStr c) =>
          Some {| Review.rating := r; Review.comment := c |}
      | _, _ => None
      end
  | _ => None
  end.

Definition as_Reviews (v : jsval) : option (list Review.t) :=
  match v with
  | JArr l => mapM as_Review l
  | _ => None
  end.

(** ** The review store *)

(** The template literal [`movie-reviews-${movieId}`]. *)
Definition storage_key (movieId : number) : string :=
  "movie-reviews-" +:+ Number_toString movieId.

(** [reviews ? JSON.parse(reviews) : []]: [null] and the empty string are
    the falsy values of [string | null]. *)
Definition loadReviewsFromLocalStorage (localStorage : gmap string string)
  (movieId : number) : result jsval :=
  let reviews := getItem localStorage (storage_key movieId) in
  match reviews with
  | Some text => if String.eqb text "" then Ok (JArr []) else JSON_parse text
  | None => Ok (JArr [])
  end.

Definition saveReviewsToLocalStorage (localStorage : gmap string string)
  (movieId : number) (reviews : list (obj Review.t)) : gmap string string :=
  setItem localStorage (storage_key movieId) (JSON_stringify (reviews_to_js reviews)).

(** ** The component state

    The [useState] variables the review logic reads or writes, and the two
    pieces of the environment it touches: the origin's local storage and the
    next free object address.  ([movies], [filteredMovies] and [trailer] only
    hold what the catalog API returned.) *)
Record State : Type := {
  currentMovie : option Movie.t;
  rating : option number;
  comment : string;
  reviews : list (obj Review.t);
  isModalOpen : bool;
  errorMessage : string;
  activeTab : Tab;
  sortOption : SortOption;
  localStorage : gmap string string;
  next_addr : nat
}.

Definition initial (ls : gmap string string) : State := {|
  currentMovie := None;
  rating := None;
  comment := "";
  reviews := [];
  isModalOpen := false;
  errorMessage := "";
  activeTab := details;
  sortOption := newest;
  localStorage := ls;
  next_addr := 0
|}.

Definition setCurrentMovie (v : option Movie.t) (s : State) : State :=
  {| currentMovie := v; rating := rating s; comment := comment s;
     reviews := reviews s; isModalOpen := isModalOpen s;
     errorMessage := errorMessage s; activeTab := activeTab s;
     sortOption := sortOption s; localStorage := localStorage s;
     next_addr := next_addr s |}.

Definition setRating (v : option number) (s : State) : State :=
  {| currentMovie := currentMovie s; rating := v; comment := comment s;
     reviews := reviews s; isModalOpen := isModalOpen s;
     errorMessage := errorMessage s; activeTab := activeTab s;
     sortOption := sortOption s; localStorage := localStorage s;
     next_addr := next_addr s |}.

Definition setComment (v : string) (s : State) : State :=
  {| currentMovie := currentMovie s; rating := rating s; comment := v;
     reviews := reviews s; isModalOpen := isModalOpen s;
     errorMessage := errorMessage s; activeTab := activeTab s;
     sortOption := sortOption s; localStorage := localStorage s;
     next_addr := next_addr s |}.

Definition setReviews (v : list (obj Review.t)) (s : State) : State :=
  {| currentMovie := currentMovie s; rating := rating s; comment := comment s;
     reviews := v; isModalOpen := isModalOpen s;
     errorMessage := errorMessage s; activeTab := activeTab s;
     sortOption := sortOption s; localStorage := localStorage s;
     next_addr := next_addr s |}.

Definition setIsModalOpen (v : bool) (s : State) : State :=
  {| currentMovie := currentMovie s; rating := rating s; comment := comment s;
     reviews := reviews s; isModalOpen := v;
     errorMessage := errorMessage s; activeTab := activeTab s;
     sortOption := sortOption s; localStorage := localStorage s;
     next_addr := next_addr s |}.

Definition setErrorMessage (v : string) (s : State) : State :=
  {| currentMovie := currentMovie s; rating := rating s; comment := comment s;
     reviews := reviews s; isModalOpen := isModalOpen s;
     errorMessage := v; activeTab := activeTab s;
     sortOption := sortOption s; localStorage := localStorage s;
     next_addr := next_addr s |}.

Definition setActiveTab (v : Tab) (s : State) : State :=
  {| currentMovie := currentMovie s; rating := rating s; comment := comment s;
     reviews := reviews s; isModalOpen := isModalOpen s;
     errorMessage := errorMessage s; activeTab := v;
     sortOption := sortOption s; localStorage := localStorage s;
     next_addr := next_addr s |}.

Definition setSortOption (v : SortOption) (s : State) : State :=
  {| currentMovie := currentMovie s; rating := rating s; comment := comment s;
     reviews := reviews s; isModalOpen := isModalOpen s;
     errorMessage := errorMessage s; activeTab := activeTab s;
     sortOption := v; localStorage := localStorage s;
     next_addr := next_addr s |}.

(** The environment: a write to local storage, and object allocation. *)
Definition setLocalStorage (v : gmap string string) (s : State) : State :=
  {| currentMovie := currentMovie s; rating := rating s; comment := comment s;
     reviews := reviews s; isModalOpen := isModalOpen s;
     errorMessage := errorMessage s; activeTab := activeTab s;
     sortOption := sortOption s; localStorage := v;
     next_addr := next_addr s |}.

Definition allocated (n : nat) (s : State) : State :=
  {| currentMovie := currentMovie s; rating := rating s; comment := comment s;
     reviews := reviews s; isModalOpen := isModalOpen s;
     errorMessage := errorMessage s; activeTab := activeTab s;
     sortOption := sortOption s; localStorage := localStorage s;
     next_addr := next_addr s + n |}.

(** Fresh objects for the elements of a parsed array. *)
Definition allocate (base : nat) (l : list Review.t) : list (obj Review.t) :=
  imap (fun i r => Obj (base + i) r) l.

(** ** The handlers *)

Definition rating_message : string := "Rating must be between 1 and 10.".

(** The effect on [[currentMovie]]: load the reviews of the movie that was
    just selected. *)
Definition loadReviewsEffect (s : State) : result State :=
  match currentMovie s with
  | Some movie =>
      v <- loadReviewsFromLocalStorage (localStorage s) (Movie.id movie) ;;;
      match as_Reviews v with
      | Some l =>
          Ok (setReviews (allocate (next_addr s) l) (allocated (length l) s))
      | None => Throw TypeError
      end
  | None => Ok s
  end.

(** [currentMovie && rating !== null && comment]: an object is truthy, a
    string is truthy when it is not empty. *)
Definition handleReviewSubmit (s : State) : State :=
  match currentMovie s, rating s, negb (String.eqb (comment s) "") with
  | Some movie, Some r, true =>
      if num_ltb r one || num_gtb r ten then
        setErrorMessage rating_message s
      else
        let newReview :=
          Obj (next_addr s) {| Review.rating := r; Review.comment := comment s |} in
        let s := allocated 1 s in
        let updatedReviews := reviews s ++ [newReview] in
        let s := setReviews updatedReviews s in
        let s :=
          setLocalStorage
            (saveReviewsToLocalStorage (localStorage s) (Movie.id movie) updatedReviews)
            s in
        let s := setRating None s in
        let s := setComment "" s in
        setErrorMessage "" s
  | _, _, _ => s
  end.

(** [value] is [Number(e.target.value)]. *)
Definition handleRatingChange (value : number) (s : State) : State :=
  let s :=
    if num_ltb value one || num_gtb value ten
    then setErrorMessage rating_message s
    else setErrorMessage "" s in
  setRating (Some value) s.

(** [fetchTrailer] only talks to the catalog API. *)
Definition openModal (movie : Movie.t) (s : State) : State :=
  let s := setCurrentMovie (Some movie) s in
  let s := setIsModalOpen true s in
  setActiveTab details s.

Definition closeModal (s : State) : State :=
  let s := setIsModalOpen false s in
  setCurrentMovie None s.

(** ** What the user can do *)

Inductive event : Type :=
  | OpenModal (movie : Movie.t)      (* click on a movie card *)
  | CloseModal                       (* the modal's close button *)
  | RatingChange (value : number)    (* the rating input's onChange *)
  | CommentChange (value : string)   (* the textarea's onChange *)
  | ReviewSubmit                     (* the Submit button *)
  | TabChange (tab : Tab)
  | SortChange (option : SortOption)
  | StorageChange (ls : gmap string string).  (* another tab or page writes *)

(** One event: the handler runs, then the effects whose dependencies
    changed.  (The open modal covers the movie cards, so [openModal] runs
    with no movie selected and the effect on [[currentMovie]] always
    fires.) *)
Definition step (e : event) (s : State) : result State :=
  match e with
  | OpenModal movie => loadReviewsEffect (openModal movie s)
  | CloseModal => loadReviewsEffect (closeModal s)
  | RatingChange value => Ok (handleRatingChange value s)
  | CommentChange value => Ok (setComment value s)
  | ReviewSubmit => Ok (handleReviewSubmit s)
  | TabChange tab => Ok (setActiveTab tab s)
  | SortChange option => Ok (setSortOption option s)
  | StorageChange ls => Ok (setLocalStorage ls s)
  end.

Fixpoint run (events : list event) (s : State) : result State :=
  match events with
  | [] => Ok s
  | e :: events' => s' <- step e s ;;; run events' s'
  end.

(** ** Rendering the reviews *)

(** [[...reviews].sort((a, b) => ...)], with [reviews] the array at address
    [reviews] of the store. *)
Definition sortedReviews (sortOption : SortOption) (reviews : nat)
  (h : store (obj Review.t)) : nat * store (obj Review.t) :=
  let '(copy, h) := spread reviews h in
  Array_sort
    (fun h a b =>
       match sortOption with
       | newest =>
           of_Z (indexOf (deref h reviews) b - indexOf (deref h reviews) a)
       | highest => num_sub (Review.rating (fields b)) (Review.rating (fields a))
       | lowest => num_sub (Review.rating (fields a)) (Review.rating (fields b))
       end)
    copy h.

(** The list the render maps over: [sortedReviews] for the state's
    [reviews] array, the only array in the store. *)
Definition renderedReviews (s : State) : list (obj Review.t) :=
  let '(sorted, h) := sortedReviews (sortOption s) 0 [reviews s] in
  deref h sorted.

End Page.

(* ===================================================================== *)
(** * What the theorems are stated with *)
(* ===================================================================== *)

Module Spec.
Import JS Page.

(** ** Star rendering *)

(** The glyph row the specification describes, over the rational value of
    the rating: [floor(rating)] full stars, one half star when
    [rating mod 1 >= 0.5], and [max(0, 10 - full - half)] empty stars. *)
Definition fullStars_spec (rating : Q) : Z := Qfloor rating.

Definition hasHalfStar_spec (rating : Q) : bool :=
  Qle_bool (1 # 2) (rating - inject_Z (Qfloor rating)).

Definition emptyStars_spec (rating : Q) : Z :=
  Z.max 0 (10 - fullStars_spec rating - (if hasHalfStar_spec rating then 1 else 0)).

Definition stars_spec (rating : Q) : list glyph :=
  replicate (Z.to_nat (fullStars_spec rating)) FaStar ++
  (if hasHalfStar_spec rating then [FaStarHalfAlt] else []) ++
  replicate (Z.to_nat (emptyStars_spec rating)) FaRegStar.

Definition count (g : glyph) (l : list glyph) : nat :=
  length (filter (fun g' => g' = g) l).

(** ** Submitting *)

(** A rating outside [1,10], over its rational value. *)
Definition out_of_range (r : number) : Prop :=
  (num_val r < 1)%Q \/ (10 < num_val r)%Q.

(** The message the page shows for the rating held in the rating input. *)
Definition message_for (rating : option number) : string :=
  match rating with
  | Some r => if num_ltb r one || num_gtb r ten then rating_message else ""
  | None => ""
  end.

(** The error message always reflects the rating input: the rating input
    is only written together with the message, by [handleRatingChange] and
    by a successful submission. *)
Definition message_inv (s : State) : Prop :=
  errorMessage s = message_for (rating s).

(** ** Sorting *)

(** The comparator [sortedReviews] passes to [sort], for the contents
    [reviews] of the array it reads. *)
Definition comparator (sortOption : SortOption) (reviews : list (obj Review.t))
  (a b : obj Review.t) : number :=
  match sortOption with
  | newest => of_Z (indexOf reviews b - indexOf reviews a)
  | highest => num_sub (Review.rating (fields b)) (Review.rating (fields a))
  | lowest => num_sub (Review.rating (fields a)) (Review.rating (fields b))
  end.

Definition rating_of (o : obj Review.t) : Q := num_val (Review.rating (fields o)).

(** Descending and ascending by rating. *)
Definition descending (l : list (obj Review.t)) : Prop :=
  StronglySorted (fun x y => (rating_of y <= rating_of x)%Q) l.
Definition ascending (l : list (obj Review.t)) : Prop :=
  StronglySorted (fun x y => (rating_of x <= rating_of y)%Q) l.

Definition review (a : nat) (r : Z) (c : string) : obj Review.t :=
  Obj a {| Review.rating := of_Z r; Review.comment := c |}.

(** [after cmp x y]: the comparator puts [x] after [y]. *)
Definition after {A} (cmp : A -> A -> number) (x y : A) : bool :=
  num_gtb (cmp x y) (of_Z 0).

(** The review objects of a page are pairwise distinct, and older than
    the next free address. *)
Definition heap_inv (s : State) : Prop :=
  NoDup (map addr (reviews s)) /\
  Forall (fun o => (addr o < next_addr s)%nat) (reviews s).

(** ** JSON texts *)

(** The double quote, as a one-character string. *)
Definition dq : string := String "034" "".

(** A text that cannot continue a run of digits. *)
Definition no_digit (s : string) : Prop :=
  match s with
  | String c _ => is_digit c = false
  | EmptyString => True
  end.

(** A text that cannot continue a number. *)
Definition number_end (s : string) : Prop :=
  match s with
  | String c _ => is_digit c = false /\ c <> "."%char /\ c <> "e"%char /\ c <> "E"%char
  | EmptyString => True
  end.

(** The text [JSON.stringify] writes for a review, followed by [rest]. *)
Definition review_text (r : Review.t) (rest : string) : string :=
  String "{" (String "034" ("rating" +:+ String "034" (String ":"
    (Number_toString (Review.rating r) +:+ String ","
      (String "034" ("comment" +:+ String "034" (String ":" (String "034"
        (escape (Review.comment r) +:+ String "034" (String "}" rest)))))))))).

Definition elements : list jsval -> string :=
  fix elements (l : list jsval) : string :=
    match l with
    | [] => ""
    | [x] => JSON_stringify x
    | x :: l' => JSON_stringify x +:+ "," +:+ elements l'
    end.

(** ** The store *)

Definition example_movie : Movie.t := {|
  Movie.id := of_Z 42;
  Movie.title := "Alien";
  Movie.overview := "";
  Movie.poster_path := "/alien.jpg";
  Movie.vote_average := Num 85 1 I
|}.

(** The state the load effect leaves and every later handler keeps up:
    [movie] is selected and [reviews] holds, in order, the collection [C]
    that is stored for it. *)
Definition in_sync (s : State) (movie : Movie.t) (C : list Review.t) : Prop :=
  currentMovie s = Some movie /\
  map fields (reviews s) = C /\
  loadReviewsFromLocalStorage (localStorage s) (Movie.id movie) =
    Ok (JArr (map review_to_js C)).

End Spec.

(* ===================================================================== *)
(** * Facts about the platform model *)
(* ===================================================================== *)

Module JSFacts.
Import JS.

Local Open Scope Z_scope.

Lemma pow10_pos k : 0 < pow10 k.
Proof. unfold pow10. apply Z.pow_pos_nonneg; lia. Qed.

Lemma pow10_S k : pow10 (S k) = 10 * pow10 k.
Proof. unfold pow10. rewrite Nat2Z.inj_succ, Z.pow_succ_r; lia. Qed.

Lemma pow10_add a b : pow10 (a + b) = pow10 a * pow10 b.
Proof. unfold pow10. rewrite Nat2Z.inj_add, Z.pow_add_r; lia. Qed.

Lemma pow10_to_pos k : Z.pos (Z.to_pos (pow10 k)) = pow10 k.
Proof. apply Z2Pos.id, pow10_pos. Qed.

(** Two numbers with the same mantissa and scale are the same number. *)
Lemma number_eq (x y : number) :
  mant x = mant y -> scale x = scale y -> x = y.
Proof.
  destruct x as [m k H], y as [m' k' H']; simpl. intros -> ->.
  f_equal. destruct (canonical m' k'); simpl in *; [by destruct H, H' | done].
Qed.

Lemma normalize_zero m k :
  m mod 10 = 0 -> normalize m (S k) = normalize (m / 10) k.
Proof.
  intros E. simpl.
  generalize (Num m (S k) : Is_true (negb (m mod 10 =? 0)) -> number).
  apply Z.eqb_eq in E. by rewrite E.
Qed.

Lemma normalize_nonzero m k :
  m mod 10 <> 0 -> exists H, normalize m (S k) = Num m (S k) H.
Proof.
  intros E. apply Z.eqb_neq in E.
  assert (forall b (f : Is_true (negb b) -> number), b = false ->
    exists H, (if b as b return (Is_true (negb b) -> number) -> number
               then fun _ => normalize (m / 10) k
               else fun mk => mk I) f = f H) as G.
  { intros b f ->. by exists I. }
  exact (G _ (Num m (S k)) E).
Qed.

(** [normalize] keeps the value ... *)
Lemma normalize_spec m k :
  mant (normalize m k) * pow10 k = m * pow10 (scale (normalize m k)).
Proof.
  revert m. induction k as [|k IH]; intros m; [done|].
  destruct (Z.eq_dec (m mod 10) 0) as [E|E].
  - rewrite normalize_zero by done. rewrite pow10_S.
    transitivity (10 * (mant (normalize (m / 10) k) * pow10 k)); [lia|].
    rewrite IH. pose proof (Z.div_mod m 10). lia.
  - destruct (normalize_nonzero m k E) as [H ->]. done.
Qed.

(** ... and is the identity on a number's own mantissa and scale. *)
Lemma normalize_number (x : number) : normalize (mant x) (scale x) = x.
Proof.
  destruct x as [m [|k] H]; simpl mant; simpl scale.
  - apply number_eq; done.
  - assert (m mod 10 <> 0) as E.
    { simpl in H. destruct (Z.eqb_spec (m mod 10) 0); done. }
    destruct (normalize_nonzero m k E) as [H' ->]. by apply number_eq.
Qed.

Lemma num_val_normalize m k :
  (num_val (normalize m k) == m # Z.to_pos (pow10 k))%Q.
Proof.
  unfold num_val, Qeq; simpl. rewrite !pow10_to_pos. apply normalize_spec.
Qed.

Lemma num_leb_Qle x y : num_leb x y = true <-> (num_val x <= num_val y)%Q.
Proof.
  unfold num_leb, num_val, Qle; simpl. rewrite !pow10_to_pos. apply Z.leb_le.
Qed.

Lemma num_ltb_Qlt x y : num_ltb x y = true <-> (num_val x < num_val y)%Q.
Proof.
  unfold num_ltb, num_val, Qlt; simpl. rewrite !pow10_to_pos. apply Z.ltb_lt.
Qed.

Lemma Math_floor_Qfloor x : Math_floor x = Qfloor (num_val x).
Proof. unfold Math_floor, num_val; simpl. by rewrite pow10_to_pos. Qed.

Lemma num_val_of_Z z : (num_val (of_Z z) == inject_Z z)%Q.
Proof. reflexivity. Qed.

Lemma num_val_nonneg x : (0 <= num_val x)%Q <-> 0 <= mant x.
Proof. unfold num_val, Qle; simpl. lia. Qed.

(** For a number that is not negative, [x % 1] is its fractional part. *)
Lemma num_val_rem_one x :
  0 <= mant x ->
  (num_val (num_rem x (of_Z 1)) == num_val x - inject_Z (Qfloor (num_val x)))%Q.
Proof.
  intros Hx. unfold num_rem. rewrite num_val_normalize.
  rewrite <- Math_floor_Qfloor. unfold Math_floor, num_val, Qeq, Qminus, Qplus.
  simpl. rewrite Nat.add_0_r, !Z.mul_1_r, Z.mul_1_l.
  pose proof (pow10_pos (scale x)) as Hp.
  rewrite Z.rem_mod_nonneg by lia.
  rewrite Pos2Z.inj_mul, !pow10_to_pos.
  pose proof (Z.div_mod (mant x) (pow10 (scale x))). nia.
Qed.

End JSFacts.

Import JS Page Spec.

(* ===================================================================== *)
(** * Star rendering *)
(* ===================================================================== *)

Module Stars.
Import JSFacts.

Local Open Scope Z_scope.

Lemma mapi_fill_replicate {A B} (g : A) (v : B) n :
  mapi (fun _ => g) (fill v (replicate n tt)) = replicate n g.
Proof.
  unfold mapi, fill. induction n as [|n IH]; [done|].
  simpl. f_equal. exact IH.
Qed.

Lemma Array_ok len :
  0 <= len <= 2 ^ 32 - 1 -> Array_ len = Ok (replicate (Z.to_nat len) tt).
Proof.
  intros H. unfold Array_.
  destruct (Z.leb_spec 0 len), (Z.leb_spec len (2 ^ 32 - 1)); simpl; done || lia.
Qed.

Lemma Array_throws len :
  len < 0 \/ 2 ^ 32 - 1 < len -> Array_ len = Throw RangeError.
Proof.
  intros H. unfold Array_.
  destruct (Z.leb_spec 0 len), (Z.leb_spec len (2 ^ 32 - 1)); simpl; done || lia.
Qed.

(** The code's [hasHalfStar] is the specification's for a rating that is
    not negative. *)
Lemma hasHalfStar_spec_ok rating :
  0 <= mant rating ->
  num_geb (num_rem rating one) half = hasHalfStar_spec (num_val rating).
Proof.
  intros H. unfold num_geb, hasHalfStar_spec.
  apply eq_true_iff_eq. rewrite num_leb_Qle, Qle_bool_iff.
  unfold one. rewrite num_val_rem_one by done.
  assert (num_val half == 1 # 2)%Q as -> by reflexivity. reflexivity.
Qed.

(** What [renderStars] does wherever [Array(fullStars)] succeeds. *)
Lemma renderStars_ok rating :
  0 <= Math_floor rating <= 2 ^ 32 - 1 ->
  renderStars rating = Ok (stars_spec (num_val rating)).
Proof.
  intros Hf. unfold renderStars, stars_spec, emptyStars_spec, fullStars_spec, Math_max.
  assert (0 <= mant rating) as Hm.
  { unfold Math_floor in Hf. pose proof (pow10_pos (scale rating)).
    destruct (Z.lt_ge_cases (mant rating) 0) as [Hneg|]; [|done].
    assert (mant rating / pow10 (scale rating) < 0); [|lia].
    apply Z.div_lt_upper_bound; lia. }
  rewrite hasHalfStar_spec_ok by done. rewrite <- Math_floor_Qfloor.
  rewrite Array_ok by done. simpl bind.
  rewrite Array_ok by (destruct (hasHalfStar_spec _); lia). simpl bind.
  by rewrite !mapi_fill_replicate.
Qed.

Lemma count_replicate g g' n :
  count g (replicate n g') = if decide (g' = g) then n else 0%nat.
Proof.
  unfold count. induction n as [|n IH]; simpl; [by case_decide|].
  rewrite filter_cons. destruct (decide (g' = g)); simpl; by rewrite IH.
Qed.

Lemma count_app g l1 l2 : count g (l1 ++ l2) = (count g l1 + count g l2)%nat.
Proof. unfold count. by rewrite filter_app, length_app. Qed.

Lemma count_half g (b : bool) :
  count g (if b then [FaStarHalfAlt] else []) =
  if b then (if decide (FaStarHalfAlt = g) then 1 else 0)%nat else 0%nat.
Proof. destruct b; [|done]. apply (count_replicate g FaStarHalfAlt 1). Qed.

Lemma Qfloor_bounds (q : Q) (a b : Z) :
  (inject_Z a <= q)%Q -> (q <= inject_Z b)%Q -> a <= Qfloor q <= b.
Proof.
  intros Ha Hb. split.
  - rewrite <- (Qfloor_Z a). by apply Qfloor_resp_le.
  - rewrite <- (Qfloor_Z b). by apply Qfloor_resp_le.
Qed.

(** A half star leaves room below the next integer. *)
Lemma half_star_floor (q : Q) (b : Z) :
  (q <= inject_Z b)%Q -> hasHalfStar_spec q = true -> Qfloor q <= b - 1.
Proof.
  unfold hasHalfStar_spec. rewrite Qle_bool_iff. intros Hb Hh.
  destruct (Z.le_gt_cases (Qfloor q) (b - 1)) as [|Hgt]; [done|exfalso].
  assert (inject_Z b <= inject_Z (Qfloor q))%Q as Hle by (rewrite <- Zle_Qle; lia).
  lra.
Qed.

(** C7: for every rating within [0,10], renderStars produces floor(rating)
    full stars, then one half star iff rating mod 1 >= 0.5, then
    max(0, 10 - full - half) empty stars, ten glyphs in all; renderStars(7)
    is 7 full and 3 empty, renderStars(7.5) is 7 full, 1 half and 2 empty,
    renderStars(10) is 10 full. *)
Theorem renderStars_in_range rating :
  (0 <= num_val rating)%Q -> (num_val rating <= 10)%Q ->
  renderStars rating = Ok (stars_spec (num_val rating)) /\
  length (stars_spec (num_val rating)) = 10%nat /\
  renderStars (of_Z 7) = Ok (replicate 7 FaStar ++ replicate 3 FaRegStar) /\
  renderStars (Num 75 1 I) =
    Ok (replicate 7 FaStar ++ [FaStarHalfAlt] ++ replicate 2 FaRegStar) /\
  renderStars (of_Z 10) = Ok (replicate 10 FaStar).
Proof.
  intros H0 H10.
  destruct (Qfloor_bounds (num_val rating) 0 10 H0 H10) as [Hlo Hhi].
  split; [|split; [|by vm_compute]].
  - apply renderStars_ok. rewrite Math_floor_Qfloor. lia.
  - unfold stars_spec, emptyStars_spec, fullStars_spec.
    rewrite !length_app, !length_replicate.
    destruct (hasHalfStar_spec (num_val rating)) eqn:Hh; simpl length.
    + pose proof (half_star_floor _ 10 H10 Hh). lia.
    + lia.
Qed.

Lemma renderStars_in_range_witness :
  renderStars (Num 75 1 I) = Ok (stars_spec (num_val (Num 75 1 I))) /\
  length (stars_spec (num_val (Num 75 1 I))) = 10%nat.
Proof.
  assert (0 <= num_val (Num 75 1 I))%Q as H0 by (by vm_compute).
  assert (num_val (Num 75 1 I) <= 10)%Q as H10 by (by vm_compute).
  pose proof (renderStars_in_range (Num 75 1 I) H0 H10) as (H1 & H2 & _).
  exact (conj H1 H2).
Defined.

(** C8 as stated fails: above 10 the half star still depends on the
    fractional part alone, so renderStars(10.5) is 10 full stars and a half
    star. *)
Lemma renderStars_above_ten_half_star :
  (10 < num_val (Num 105 1 I))%Q /\
  renderStars (Num 105 1 I) = Ok (replicate 10 FaStar ++ [FaStarHalfAlt]) /\
  count FaStarHalfAlt (replicate 10 FaStar ++ [FaStarHalfAlt]) = 1%nat.
Proof. by vm_compute. Qed.

(** C8, amended: for every rating above 10 whose floor is a valid array
    length, renderStars emits floor(rating) full stars (ten or more, not
    capped), no empty star, and a half star exactly when
    rating mod 1 >= 0.5. *)
Theorem renderStars_above_ten rating :
  (10 < num_val rating)%Q -> Qfloor (num_val rating) <= 2 ^ 32 - 1 ->
  exists glyphs,
    renderStars rating = Ok glyphs /\
    count FaStar glyphs = Z.to_nat (Qfloor (num_val rating)) /\
    (10 <= count FaStar glyphs)%nat /\
    count FaRegStar glyphs = 0%nat /\
    count FaStarHalfAlt glyphs =
      (if hasHalfStar_spec (num_val rating) then 1 else 0)%nat.
Proof.
  intros H10 Hmax.
  assert (10 <= Qfloor (num_val rating)) as Hlo.
  { rewrite <- (Qfloor_Z 10). apply Qfloor_resp_le, Qlt_le_weak, H10. }
  exists (stars_spec (num_val rating)). split.
  { apply renderStars_ok. rewrite Math_floor_Qfloor. lia. }
  unfold stars_spec, emptyStars_spec, fullStars_spec.
  rewrite !count_app, !count_replicate, !count_half.
  replace (Z.to_nat (Z.max 0 _)) with 0%nat
    by (destruct (hasHalfStar_spec _); lia).
  repeat case_decide; try done.
  destruct (hasHalfStar_spec _); repeat split; lia.
Qed.

Lemma renderStars_above_ten_witness :
  exists glyphs,
    renderStars (of_Z 12) = Ok glyphs /\
    count FaStar glyphs = 12%nat /\
    (10 <= count FaStar glyphs)%nat /\
    count FaRegStar glyphs = 0%nat /\
    count FaStarHalfAlt glyphs = 0%nat.
Proof.
  assert (10 < num_val (of_Z 12))%Q as H10 by (by vm_compute).
  assert (Qfloor (num_val (of_Z 12)) <= 2 ^ 32 - 1) as Hmax by (by vm_compute).
  exact (renderStars_above_ten (of_Z 12) H10 Hmax).
Defined.

(** C10 as stated fails: a rating that is not negative can still make
    Array(fullStars) raise, from 2^32 on. *)
Lemma renderStars_raises_at_2_32 :
  (0 <= num_val (of_Z 4294967296))%Q /\
  renderStars (of_Z 4294967296) = Throw RangeError.
Proof. by vm_compute. Qed.

(** C10, amended: for every rating that is not negative the three glyph
    counts are not negative, and renderStars returns a glyph sequence as
    long as floor(rating) is at most 2^32 - 1; for every negative rating,
    and from 2^32 on, Array(fullStars) raises a RangeError. *)
Theorem renderStars_total_range rating :
  ((0 <= num_val rating)%Q ->
     0 <= fullStars_spec (num_val rating) /\
     0 <= (if hasHalfStar_spec (num_val rating) then 1 else 0) /\
     0 <= emptyStars_spec (num_val rating) /\
     (Qfloor (num_val rating) <= 2 ^ 32 - 1 ->
      renderStars rating = Ok (stars_spec (num_val rating)))) /\
  ((num_val rating < 0)%Q -> renderStars rating = Throw RangeError) /\
  ((inject_Z (2 ^ 32) <= num_val rating)%Q ->
     renderStars rating = Throw RangeError).
Proof.
  assert (forall r, Math_floor r < 0 \/ 2 ^ 32 - 1 < Math_floor r ->
                    renderStars r = Throw RangeError) as Hthrow.
  { intros r H. unfold renderStars. by rewrite Array_throws. }
  split; [|split].
  - intros H0.
    assert (0 <= Qfloor (num_val rating)) as Hlo.
    { rewrite <- (Qfloor_Z 0). by apply Qfloor_resp_le. }
    unfold emptyStars_spec, fullStars_spec. repeat split; try lia.
    + by destruct (hasHalfStar_spec _).
    + intros Hmax. apply renderStars_ok. rewrite Math_floor_Qfloor. lia.
  - intros Hneg. apply Hthrow. left. rewrite Math_floor_Qfloor.
    rewrite Zlt_Qlt. apply Qle_lt_trans with (num_val rating); [apply Qfloor_le|done].
  - intros Hbig. apply Hthrow. right. rewrite Math_floor_Qfloor.
    assert (2 ^ 32 <= Qfloor (num_val rating)); [|lia].
    rewrite <- (Qfloor_Z (2 ^ 32)). by apply Qfloor_resp_le.
Qed.

Lemma renderStars_total_range_witness :
  renderStars (Num 75 1 I) = Ok (stars_spec (num_val (Num 75 1 I))) /\
  renderStars (Num (-5) 1 I) = Throw RangeError.
Proof.
  split.
  - apply (proj1 (renderStars_total_range (Num 75 1 I))); by vm_compute.
  - apply (proj1 (proj2 (renderStars_total_range (Num (-5) 1 I)))). by vm_compute.
Defined.

End Stars.

(* ===================================================================== *)
(** * Submitting a review *)
(* ===================================================================== *)

Module Submit.
Import JSFacts.

Lemma range_check r :
  num_ltb r one || num_gtb r ten = true <-> out_of_range r.
Proof.
  unfold out_of_range, num_gtb.
  rewrite orb_true_iff, !num_ltb_Qlt. reflexivity.
Qed.

Lemma range_check_false r :
  num_ltb r one || num_gtb r ten = false <->
  (1 <= num_val r)%Q /\ (num_val r <= 10)%Q.
Proof.
  rewrite <- not_true_iff_false, range_check. unfold out_of_range.
  change (num_val one) with 1%Q. split.
  - intros H. split; apply Qnot_lt_le; tauto.
  - intros [H1 H2] [H|H]; [apply (Qlt_not_le _ _ H), H1|apply (Qlt_not_le _ _ H), H2].
Qed.

Lemma loadReviewsEffect_frame s s' :
  loadReviewsEffect s = Ok s' ->
  rating s' = rating s /\ errorMessage s' = errorMessage s /\
  comment s' = comment s /\ currentMovie s' = currentMovie s /\
  localStorage s' = localStorage s.
Proof.
  unfold loadReviewsEffect. destruct (currentMovie s) eqn:Hm.
  - destruct (loadReviewsFromLocalStorage _ _) as [v|]; simpl; [|done].
    destruct (as_Reviews v); [|done]. intros [= <-]. by simpl.
  - by intros [= <-].
Qed.

Lemma message_inv_initial ls : message_inv (initial ls).
Proof. reflexivity. Qed.

Lemma message_inv_submit s : message_inv s -> message_inv (handleReviewSubmit s).
Proof.
  unfold message_inv, handleReviewSubmit. intros H.
  destruct (currentMovie s); [|done].
  destruct (rating s) as [r|] eqn:Hr; [|by rewrite Hr].
  destruct (negb (comment s =? "")%string); [|by rewrite Hr].
  destruct (num_ltb r one || num_gtb r ten) eqn:Hrange.
  - change (rating_message = message_for (rating s)).
    rewrite Hr. unfold message_for. by rewrite Hrange.
  - done.
Qed.

Lemma message_inv_step e s s' :
  message_inv s -> step e s = Ok s' -> message_inv s'.
Proof.
  unfold message_inv. intros H.
  destruct e; simpl; try (intros [= <-]; by simpl).
  - intros H'. apply loadReviewsEffect_frame in H' as (-> & -> & _). by simpl.
  - intros [= <-]. unfold handleRatingChange, message_for.
    destruct (num_ltb value one || num_gtb value ten) eqn:E;
      cbn [rating errorMessage setRating setErrorMessage]; by rewrite E.
  - intros [= <-]. by apply message_inv_submit.
Qed.

Lemma message_inv_run events s s' :
  message_inv s -> run events s = Ok s' -> message_inv s'.
Proof.
  revert s. induction events as [|e events IH]; intros s H; simpl.
  - by intros [= <-].
  - destruct (step e s) as [s1|] eqn:He; simpl; [|done].
    apply IH. by apply (message_inv_step e s).
Qed.

(** C9: a submission while no movie is selected, or while the rating input
    is null, is a complete no-op whatever the comment is: the whole state
    (stored and in-memory collections, error message, rating and comment
    inputs) is unchanged. *)
Theorem handleReviewSubmit_no_movie_or_rating s :
  currentMovie s = None \/ rating s = None ->
  handleReviewSubmit s = s /\
  localStorage (handleReviewSubmit s) = localStorage s /\
  reviews (handleReviewSubmit s) = reviews s /\
  errorMessage (handleReviewSubmit s) = errorMessage s /\
  rating (handleReviewSubmit s) = rating s /\
  comment (handleReviewSubmit s) = comment s.
Proof.
  intros H. assert (handleReviewSubmit s = s) as ->; [|done].
  unfold handleReviewSubmit. destruct H as [-> | ->]; [done|].
  by destruct (currentMovie s).
Qed.

Lemma handleReviewSubmit_no_movie_or_rating_witness :
  handleReviewSubmit (setComment "great" (initial ∅)) = setComment "great" (initial ∅).
Proof.
  apply (handleReviewSubmit_no_movie_or_rating (setComment "great" (initial ∅))).
  left. reflexivity.
Defined.

(** C5: a submission with an empty comment and a valid rating is a silent
    no-op: the state, and with it the stored collection, is unchanged, and
    no error message is produced: the message is as it was, which on the
    running page means there is none. *)
Theorem handleReviewSubmit_empty_comment s r :
  rating s = Some r -> (1 <= num_val r)%Q -> (num_val r <= 10)%Q ->
  comment s = "" ->
  handleReviewSubmit s = s /\
  localStorage (handleReviewSubmit s) = localStorage s /\
  reviews (handleReviewSubmit s) = reviews s /\
  errorMessage (handleReviewSubmit s) = errorMessage s /\
  (forall ls events, run events (initial ls) = Ok s ->
     errorMessage (handleReviewSubmit s) = "").
Proof.
  intros Hr H1 H10 Hc.
  assert (handleReviewSubmit s = s) as ->.
  { unfold handleReviewSubmit. rewrite Hc. by destruct (currentMovie s), (rating s). }
  repeat split. intros ls events Hrun.
  pose proof (message_inv_run _ _ _ (message_inv_initial ls) Hrun) as Hinv.
  unfold message_inv in Hinv. rewrite Hinv, Hr. simpl.
  by rewrite (proj2 (range_check_false r) (conj H1 H10)).
Qed.

Lemma handleReviewSubmit_empty_comment_witness :
  handleReviewSubmit (handleRatingChange (of_Z 7) (initial ∅)) =
    handleRatingChange (of_Z 7) (initial ∅) /\
  errorMessage (handleReviewSubmit (handleRatingChange (of_Z 7) (initial ∅))) = "".
Proof.
  assert (1 <= num_val (of_Z 7))%Q as H1 by (by vm_compute).
  assert (num_val (of_Z 7) <= 10)%Q as H10 by (by vm_compute).
  pose proof (handleReviewSubmit_empty_comment
                (handleRatingChange (of_Z 7) (initial ∅)) (of_Z 7)
                eq_refl H1 H10 eq_refl) as (Hs & _ & _ & _ & Hmsg).
  exact (conj Hs (Hmsg ∅ [RatingChange (of_Z 7)] eq_refl)).
Defined.

(** With a movie selected and a comment typed, the handler itself rejects
    the rating. *)
Lemma handleReviewSubmit_rejects s movie r :
  currentMovie s = Some movie -> rating s = Some r -> comment s <> "" ->
  out_of_range r ->
  handleReviewSubmit s = setErrorMessage rating_message s.
Proof.
  intros Hm Hr Hc Hrange. unfold handleReviewSubmit. rewrite Hm, Hr.
  destruct (String.eqb_spec (comment s) ""); [done|]. simpl.
  by rewrite (proj2 (range_check r) Hrange).
Qed.

(** C4: a submission with a non-null rating outside [1,10] (0 and 11 in
    particular) is blocked: nothing is saved, the stored and in-memory
    collections are unchanged, and the message "Rating must be between 1
    and 10." is set.  With a movie selected and a comment typed the handler
    sets it; in every other state the running page can be in, it is the
    message [handleRatingChange] set when that rating was entered. *)
Theorem handleReviewSubmit_out_of_range s r :
  rating s = Some r -> out_of_range r ->
  localStorage (handleReviewSubmit s) = localStorage s /\
  reviews (handleReviewSubmit s) = reviews s /\
  (forall ls events, run events (initial ls) = Ok s ->
     errorMessage (handleReviewSubmit s) = "Rating must be between 1 and 10.") /\
  (forall movie, currentMovie s = Some movie -> comment s <> "" ->
     errorMessage (handleReviewSubmit s) = "Rating must be between 1 and 10.") /\
  out_of_range (of_Z 0) /\ out_of_range (of_Z 11).
Proof.
  intros Hr Hrange.
  assert (handleReviewSubmit s = s \/
          handleReviewSubmit s = setErrorMessage rating_message s) as Hs.
  { unfold handleReviewSubmit. rewrite Hr.
    destruct (currentMovie s); [|by left].
    destruct (negb _); [|by left].
    rewrite (proj2 (range_check r) Hrange). by right. }
  split; [by destruct Hs as [-> | ->]|].
  split; [by destruct Hs as [-> | ->]|].
  split; [|split].
  - intros ls events Hrun.
    pose proof (message_inv_run _ _ _ (message_inv_initial ls) Hrun) as Hinv.
    destruct Hs as [-> | ->]; [|done].
    unfold message_inv in Hinv. rewrite Hinv, Hr. simpl.
    by rewrite (proj2 (range_check r) Hrange).
  - intros movie Hm Hc.
    by rewrite (handleReviewSubmit_rejects s movie r Hm Hr Hc Hrange).
  - split; [left|right]; by vm_compute.
Qed.

Lemma handleReviewSubmit_out_of_range_witness :
  errorMessage (handleReviewSubmit (handleRatingChange (of_Z 11) (initial ∅))) =
    "Rating must be between 1 and 10." /\
  localStorage (handleReviewSubmit (handleRatingChange (of_Z 11) (initial ∅))) =
    localStorage (handleRatingChange (of_Z 11) (initial ∅)).
Proof.
  assert (out_of_range (of_Z 11)) as Hrange by (right; by vm_compute).
  pose proof (handleReviewSubmit_out_of_range
                (handleRatingChange (of_Z 11) (initial ∅)) (of_Z 11)
                eq_refl Hrange) as (Hls & _ & Hmsg & _).
  exact (conj (Hmsg ∅ [RatingChange (of_Z 11)] eq_refl) Hls).
Defined.

End Submit.

(* ===================================================================== *)
(** * Sorting the reviews *)
(* ===================================================================== *)

Module Sorting.
Import JSFacts.

Section insertion.
Context {A : Type} (cmp : A -> A -> number).

Lemma insert_perm x l : insert cmp x l ≡ₚ x :: l.
Proof.
  induction l as [|y l IH]; simpl; [done|].
  destruct (num_gtb _ _); [|done]. rewrite IH. apply Permutation_swap.
Qed.

Lemma sort_perm l : sort cmp l ≡ₚ l.
Proof.
  induction l as [|x l IH]; simpl; [done|]. by rewrite insert_perm, IH.
Qed.

(** An element that goes after everything is appended. *)
Lemma insert_last x l :
  Forall (fun y => after cmp x y = true) l -> insert cmp x l = l ++ [x].
Proof.
  induction 1 as [|y l Hy _ IH]; simpl; [done|].
  unfold after in Hy. by rewrite Hy, IH.
Qed.

(** A list in which every element goes after all later ones is
    reversed. *)
Lemma sort_reverses l :
  StronglySorted (fun x y => after cmp x y = true) l -> sort cmp l = rev l.
Proof.
  induction 1 as [|x l _ IH Hx]; simpl; [done|].
  rewrite IH. apply insert_last. by apply Forall_rev.
Qed.

(** For a comparator that decides a total preorder, the result is
    sorted. *)
Context (le : A -> A -> Prop).
Context (le_trans : forall x y z, le x y -> le y z -> le x z).
Context (after_le : forall x y, after cmp x y = true -> le y x).
Context (not_after_le : forall x y, after cmp x y = false -> le x y).

Lemma insert_sorted x l :
  StronglySorted le l -> StronglySorted le (insert cmp x l).
Proof.
  induction 1 as [|y l Hl IH Hy]; simpl.
  - repeat constructor.
  - destruct (num_gtb (cmp x y) (of_Z 0)) eqn:E.
    + constructor; [done|]. rewrite insert_perm. constructor; [|done].
      by apply after_le.
    + constructor; [by constructor|]. apply not_after_le in E.
      constructor; [done|]. eapply Forall_impl; [exact Hy|].
      intros z Hz. by apply le_trans with y.
Qed.

Lemma sort_sorted l : StronglySorted le (sort cmp l).
Proof.
  induction l as [|x l IH]; simpl; [constructor|]. by apply insert_sorted.
Qed.
End insertion.

Local Open Scope Z_scope.

Lemma normalize_sign m k : 0 < mant (normalize m k) <-> 0 < m.
Proof.
  pose proof (normalize_spec m k).
  pose proof (pow10_pos k). pose proof (pow10_pos (scale (normalize m k))).
  nia.
Qed.

(** [x - y > 0] exactly when [y < x]. *)
Lemma num_sub_pos x y :
  num_gtb (num_sub x y) (of_Z 0) = true <-> (num_val y < num_val x)%Q.
Proof.
  unfold num_gtb, num_ltb, num_sub. simpl mant. simpl scale.
  rewrite Z.ltb_lt, Z.mul_0_l.
  change (pow10 0) with 1. rewrite Z.mul_1_r, normalize_sign.
  unfold num_val, Qlt. simpl. rewrite !pow10_to_pos. lia.
Qed.

Lemma num_sub_not_pos x y :
  num_gtb (num_sub x y) (of_Z 0) = false <-> (num_val x <= num_val y)%Q.
Proof.
  rewrite <- not_true_iff_false, num_sub_pos. split.
  - apply Qnot_lt_le.
  - intros H H'. by apply (Qlt_not_le _ _ H').
Qed.

Lemma of_Z_pos z : num_gtb (of_Z z) (of_Z 0) = true <-> 0 < z.
Proof.
  unfold num_gtb, num_ltb. simpl mant. simpl scale.
  change (pow10 0) with 1. rewrite Z.ltb_lt. lia.
Qed.

(** In an array of distinct objects, [indexOf] finds each element where it
    is. *)
Lemma indexOf_from_lookup {A} (l : list (obj A)) x i j :
  NoDup (map addr l) -> l !! i = Some x ->
  indexOf_from l x j = j + Z.of_nat i.
Proof.
  revert i j. induction l as [|y l IH]; intros i j Hnd Hi; [done|].
  simpl in Hnd. apply NoDup_cons in Hnd as [Hy Hnd].
  destruct i as [|i]; simpl in *.
  - injection Hi as ->. rewrite Nat.eqb_refl. lia.
  - destruct (Nat.eqb_spec (addr y) (addr x)) as [E|_].
    + exfalso. apply Hy. rewrite E. apply list_elem_of_fmap. exists x.
      split; [done|]. by apply list_elem_of_lookup_2 with i.
    + rewrite (IH i) by done. lia.
Qed.

Lemma indexOf_lookup {A} (l : list (obj A)) x i :
  NoDup (map addr l) -> l !! i = Some x -> indexOf l x = Z.of_nat i.
Proof. intros. unfold indexOf. by rewrite (indexOf_from_lookup l x i 0). Qed.

(** Under [newest], every element of an array of distinct objects goes
    after all later ones. *)
Lemma newest_reversing (pre suf : list (obj Review.t)) :
  NoDup (map addr (pre ++ suf)) ->
  StronglySorted
    (fun x y => after (comparator newest (pre ++ suf)) x y = true) suf.
Proof.
  revert pre. induction suf as [|x suf IH]; intros pre Hnd; [constructor|].
  constructor.
  - specialize (IH (pre ++ [x])). rewrite <- (assoc_L (++)) in IH. by apply IH.
  - apply Forall_forall. intros y Hy.
    apply list_elem_of_lookup in Hy as [j Hj].
    unfold after, comparator. rewrite of_Z_pos.
    rewrite (indexOf_lookup _ x (length pre)) by
      (done || by rewrite lookup_app_r, Nat.sub_diag by lia).
    rewrite (indexOf_lookup _ y (length pre + S j)).
    + lia.
    + done.
    + rewrite lookup_app_r by lia.
      by replace (length pre + S j - length pre)%nat with (S j) by lia.
Qed.

Lemma sort_newest (reviews : list (obj Review.t)) :
  NoDup (map addr reviews) ->
  sort (comparator newest reviews) reviews = rev reviews.
Proof. intros Hnd. apply sort_reverses. by apply (newest_reversing []). Qed.

Lemma sort_highest reviews l : descending (sort (comparator highest reviews) l).
Proof.
  apply sort_sorted.
  - intros x y z Hxy Hyz. by apply Qle_trans with (rating_of y).
  - intros x y H. apply num_sub_pos in H. by apply Qlt_le_weak.
  - intros x y H. by apply num_sub_not_pos in H.
Qed.

Lemma sort_lowest reviews l : ascending (sort (comparator lowest reviews) l).
Proof.
  apply sort_sorted.
  - intros x y z Hxy Hyz. by apply Qle_trans with (rating_of y).
  - intros x y H. apply num_sub_pos in H. by apply Qlt_le_weak.
  - intros x y H. by apply num_sub_not_pos in H.
Qed.

(** [sortedReviews] allocates one array, the sorted copy, and writes to
    nothing else. *)
Lemma sortedReviews_eq sortOption a (h : store (obj Review.t)) reviews :
  h !! a = Some reviews ->
  sortedReviews sortOption a h =
    (length h, h ++ [sort (comparator sortOption reviews) reviews]).
Proof.
  intros Ha. unfold sortedReviews, spread, Array_sort.
  assert (deref h a = reviews) as Hd by (unfold deref; by rewrite Ha).
  assert (deref (h ++ [reviews]) a = reviews) as Hd'.
  { unfold deref. by rewrite (lookup_app_l_Some h _ a reviews Ha). }
  rewrite Hd, Hd'. f_equal.
  unfold store. rewrite alter_app_r_alt by lia. by rewrite Nat.sub_diag.
Qed.

Lemma allocate_addr base (l : list Review.t) :
  map addr (allocate base l) = seq base (length l).
Proof.
  unfold allocate. revert base. induction l as [|r l IH]; intros base; [done|].
  simpl. rewrite Nat.add_0_r. f_equal.
  rewrite <- (IH (S base)). f_equal. apply imap_ext. intros i x _. simpl.
  f_equal. lia.
Qed.

Lemma heap_inv_initial ls : heap_inv (initial ls).
Proof. split; simpl; constructor. Qed.

Lemma heap_inv_effect s s' :
  heap_inv s -> loadReviewsEffect s = Ok s' -> heap_inv s'.
Proof.
  unfold loadReviewsEffect. intros H. destruct (currentMovie s).
  - destruct (loadReviewsFromLocalStorage _ _) as [v|]; simpl; [|done].
    destruct (as_Reviews v) as [l|]; [|done]. intros [= <-].
    unfold heap_inv. simpl. split.
    + rewrite allocate_addr. apply NoDup_seq.
    + apply Forall_forall. intros o Ho.
      assert (addr o ∈ map addr (allocate (next_addr s) l)) as Hin
        by (apply list_elem_of_fmap; eauto).
      rewrite allocate_addr in Hin. apply elem_of_seq in Hin. lia.
  - by intros [= <-].
Qed.

Lemma heap_inv_submit s : heap_inv s -> heap_inv (handleReviewSubmit s).
Proof.
  unfold handleReviewSubmit. intros [Hnd Hlt].
  destruct (currentMovie s); [|done]. destruct (rating s); [|done].
  destruct (negb _); [|done]. destruct (_ || _); [done|].
  unfold heap_inv. simpl. split.
  - rewrite map_app. simpl. apply NoDup_app. split; [done|]. split.
    + intros x Hx ->%list_elem_of_singleton.
      apply list_elem_of_fmap in Hx as (o & Ho & Hin).
      rewrite Forall_forall in Hlt. specialize (Hlt o Hin). lia.
    + apply NoDup_singleton.
  - apply Forall_app. split.
    + eapply Forall_impl; [exact Hlt|]. simpl. lia.
    + constructor; [simpl; lia|constructor].
Qed.

Lemma heap_inv_step e s s' : heap_inv s -> step e s = Ok s' -> heap_inv s'.
Proof.
  intros H. destruct e; simpl; try (intros [= <-]; exact H).
  - by apply heap_inv_effect.
  - intros [= <-]. unfold handleRatingChange. by destruct (_ || _).
  - intros [= <-]. by apply heap_inv_submit.
Qed.

Lemma heap_inv_run events s s' :
  heap_inv s -> run events s = Ok s' -> heap_inv s'.
Proof.
  revert s. induction events as [|e events IH]; intros s H; simpl.
  - by intros [= <-].
  - destruct (step e s) as [s1|] eqn:He; simpl; [|done].
    apply IH. by apply (heap_inv_step e s).
Qed.

(** On the page, [newest] shows the reviews in the exact reverse of the
    order in which they were loaded and submitted. *)
Lemma renderedReviews_newest ls events s :
  run events (initial ls) = Ok s -> sortOption s = newest ->
  renderedReviews s = rev (reviews s).
Proof.
  intros Hrun Hopt. unfold renderedReviews.
  rewrite (sortedReviews_eq _ 0 [reviews s] (reviews s)) by done.
  rewrite Hopt. simpl. apply sort_newest.
  by apply (heap_inv_run events (initial ls) s (heap_inv_initial ls)).
Qed.

(** C6: sortedReviews sorts a copy: the sorted array is a new one and
    every array there was, the reviews among them, is unchanged, under any
    sort option; the result holds the same reviews, for 'newest' in the
    exact reverse of insertion order, for 'highest' descending by rating,
    for 'lowest' ascending by rating.  Ratings [3, 9, 1] give [9, 3, 1]
    under 'highest' and [1, 3, 9] under 'lowest'; [A, B, C] gives [C, B, A]
    under 'newest'. *)
Theorem sortedReviews_spec sortOption a (h : store (obj Review.t)) reviews :
  h !! a = Some reviews ->
  (exists sorted,
     sortedReviews sortOption a h = (length h, h ++ [sorted]) /\
     (forall b arr, h !! b = Some arr -> (h ++ [sorted]) !! b = Some arr) /\
     sorted ≡ₚ reviews /\
     match sortOption with
     | newest => NoDup (map addr reviews) -> sorted = rev reviews
     | highest => descending sorted
     | lowest => ascending sorted
     end) /\
  sortedReviews highest 0 [[review 0 3 "A"; review 1 9 "B"; review 2 1 "C"]] =
    (1%nat, [[review 0 3 "A"; review 1 9 "B"; review 2 1 "C"];
             [review 1 9 "B"; review 0 3 "A"; review 2 1 "C"]]) /\
  sortedReviews lowest 0 [[review 0 3 "A"; review 1 9 "B"; review 2 1 "C"]] =
    (1%nat, [[review 0 3 "A"; review 1 9 "B"; review 2 1 "C"];
             [review 2 1 "C"; review 0 3 "A"; review 1 9 "B"]]) /\
  sortedReviews newest 0 [[review 0 3 "A"; review 1 9 "B"; review 2 1 "C"]] =
    (1%nat, [[review 0 3 "A"; review 1 9 "B"; review 2 1 "C"];
             [review 2 1 "C"; review 1 9 "B"; review 0 3 "A"]]).
Proof.
  intros Ha. split; [|by vm_compute].
  exists (sort (comparator sortOption reviews) reviews).
  split; [by apply sortedReviews_eq|]. split; [|split].
  - intros b arr Hb. by apply lookup_app_l_Some.
  - apply sort_perm.
  - destruct sortOption.
    + apply sort_newest.
    + apply sort_highest.
    + apply sort_lowest.
Qed.

Lemma sortedReviews_spec_witness :
  exists sorted,
    sortedReviews highest 0 [[review 0 3 "A"; review 1 9 "B"; review 2 1 "C"]] =
      (1%nat, [[review 0 3 "A"; review 1 9 "B"; review 2 1 "C"]] ++ [sorted]) /\
    descending sorted.
Proof.
  destruct (sortedReviews_spec highest 0
              [[review 0 3 "A"; review 1 9 "B"; review 2 1 "C"]]
              [review 0 3 "A"; review 1 9 "B"; review 2 1 "C"] eq_refl)
    as [(sorted & H1 & _ & _ & H2) _].
  exists sorted. exact (conj H1 H2).
Defined.

End Sorting.

(* ===================================================================== *)
(** * JSON: parsing what was printed *)
(* ===================================================================== *)

Module Json.
Import JSFacts.

Local Open Scope Z_scope.

Lemma digit_cases d : 0 <= d < 10 ->
  d = 0 \/ d = 1 \/ d = 2 \/ d = 3 \/ d = 4 \/ d = 5 \/ d = 6 \/ d = 7 \/ d = 8 \/ d = 9.
Proof. lia. Qed.

Lemma digit_char_spec d :
  0 <= d < 10 -> is_digit (digit_char d) = true /\ digit_val (digit_char d) = d.
Proof.
  intros H. destruct (digit_cases d H) as [->|[->|[->|[->|[->|[->|[->|[->|[->| ->]]]]]]]]];
    by vm_compute.
Qed.

Lemma append_nil (s : string) : "" +:+ s = s.
Proof. reflexivity. Qed.

Lemma append_cons x (a b : string) : String x a +:+ b = String x (a +:+ b).
Proof. reflexivity. Qed.

Lemma append_assoc (a b c : string) : (a +:+ b) +:+ c = a +:+ (b +:+ c).
Proof. induction a as [|x a IH]; [done|]. by rewrite !append_cons, IH. Qed.

Lemma read_digits_stop s acc c : no_digit s -> read_digits s acc c = (acc, c, s).
Proof. destruct s as [|x s]; simpl; [done|]. by intros ->. Qed.

(** Reading back [k] printed digits. *)
Lemma read_digits_fixed k n rest acc c :
  read_digits (fixed k n +:+ rest) acc c =
  read_digits rest (acc * pow10 k + n mod pow10 k) (c + k)%nat.
Proof.
  revert acc c. induction k as [|k IH]; intros acc c.
  - simpl. change (pow10 0) with 1. rewrite Z.mod_1_r. do 2 f_equal; lia.
  - simpl fixed. rewrite append_cons. simpl read_digits.
    pose proof (pow10_pos k) as Hk.
    assert (0 <= (n / pow10 k) mod 10 < 10) as Hd by (apply Z.mod_pos_bound; lia).
    destruct (digit_char_spec _ Hd) as [-> ->]. rewrite IH. f_equal; [|lia].
    rewrite pow10_S. rewrite (Z.mul_comm 10 (pow10 k)).
    rewrite (Z.rem_mul_r n (pow10 k) 10) by lia. lia.
Qed.

Lemma ndigits_aux_spec fuel n :
  0 <= n < 10 * 8 ^ Z.of_nat fuel ->
  n < pow10 (ndigits_aux fuel n) /\
  (0 < n -> pow10 (ndigits_aux fuel n - 1) <= n) /\
  (1 <= ndigits_aux fuel n)%nat.
Proof.
  revert n. induction fuel as [|fuel IH]; intros n Hn.
  - simpl in *. change (pow10 1) with 10. change (pow10 0) with 1. lia.
  - simpl ndigits_aux. destruct (Z.ltb_spec n 10) as [Hlt|Hge].
    + change (pow10 1) with 10. change (pow10 (1 - 1)) with 1. lia.
    + rewrite Nat2Z.inj_succ, Z.pow_succ_r in Hn by lia.
      destruct (IH (n / 10)) as (H1 & H2 & H3).
      { split; [apply Z.div_pos; lia|]. apply Z.div_lt_upper_bound; lia. }
      rewrite pow10_S. replace (S (ndigits_aux fuel (n / 10)) - 1)%nat
        with (S (ndigits_aux fuel (n / 10) - 1)) by lia.
      rewrite pow10_S. pose proof (Z.div_mod n 10).
      pose proof (Z.mod_pos_bound n 10).
      assert (0 < n / 10) as Hpos by (apply Z.div_str_pos; lia).
      specialize (H2 Hpos). split; [lia|]. split; [lia|lia].
Qed.

Lemma ndigits_spec n :
  0 <= n ->
  n < pow10 (ndigits n) /\ (0 < n -> pow10 (ndigits n - 1) <= n) /\
  (1 <= ndigits n)%nat.
Proof.
  intros Hn. apply ndigits_aux_spec. split; [done|].
  destruct (Z.eq_dec n 0) as [->|Hne]; [simpl; lia|].
  rewrite Z2Nat.id by apply Z.log2_nonneg.
  pose proof (Z.log2_spec n). pose proof (Z.log2_nonneg n).
  assert (2 ^ Z.log2 n <= 8 ^ Z.log2 n) by (apply Z.pow_le_mono_l; lia).
  rewrite Z.pow_succ_r in * by lia. lia.
Qed.

Lemma number_end_no_digit s : number_end s -> no_digit s.
Proof. destruct s; simpl; tauto. Qed.

Lemma is_digit_not c c' :
  is_digit c = true -> is_digit c' = false -> Ascii.eqb c c' = false.
Proof. intros H H'. destruct (Ascii.eqb_spec c c'); congruence. Qed.

Lemma fixed_head k n :
  fixed (S k) n = String (digit_char ((n / pow10 k) mod 10)) (fixed k n).
Proof. reflexivity. Qed.

(** The integer part is read back, and has no leading zero. *)
Lemma parse_int_fixed n rest :
  0 <= n -> no_digit rest ->
  parse_int (fixed (ndigits n) n +:+ rest) = Some (n, rest).
Proof.
  intros Hn Hrest. unfold parse_int.
  destruct (ndigits_spec n Hn) as (Hlt & Hge & Hk).
  rewrite read_digits_fixed, read_digits_stop by done.
  rewrite Z.mul_0_l, Z.add_0_l, Z.mod_small, Nat.add_0_l by lia.
  destruct (ndigits n) as [|k] eqn:Ek; [lia|]. simpl Nat.eqb. cbv iota.
  destruct k as [|k]; [done|].
  replace (1 <? S (S k))%nat with true by (symmetry; apply Nat.ltb_lt; lia).
  rewrite fixed_head, append_cons. simpl starts_with.
  assert (0 < n) as Hpos.
  { destruct (Z.eq_dec n 0) as [->|]; [discriminate Ek|lia]. }
  specialize (Hge Hpos). replace (S (S k) - 1)%nat with (S k) in Hge by lia.
  pose proof (pow10_pos (S k)) as Hp. rewrite (pow10_S (S k)) in Hlt.
  assert (1 <= n / pow10 (S k) < 10) as Hd.
  { split; [apply Z.div_le_lower_bound; lia|apply Z.div_lt_upper_bound; lia]. }
  rewrite Z.mod_small by lia.
  assert (0 <= n / pow10 (S k) < 10) as Hd' by lia.
  destruct (digit_cases _ Hd') as [E|[->|[->|[->|[->|[->|[->|[->|[->| ->]]]]]]]]];
    [lia|done..].
Qed.

Lemma parse_frac_none ip rest :
  number_end rest -> parse_frac ip rest = Some (ip, O, rest).
Proof.
  destruct rest as [|c rest]; [done|]. simpl. intros (_ & Hdot & _).
  by destruct (Ascii.eqb_spec c ".").
Qed.

Lemma parse_frac_fixed a k rest :
  0 <= a -> number_end rest ->
  parse_frac (a / pow10 (S k)) (String "." (fixed (S k) a +:+ rest)) =
  Some (a, S k, rest).
Proof.
  intros Ha Hrest. unfold parse_frac. simpl Ascii.eqb. cbv iota.
  rewrite read_digits_fixed, read_digits_stop by by apply number_end_no_digit.
  simpl Nat.add. simpl Nat.eqb. cbv iota. do 3 f_equal.
  pose proof (pow10_pos (S k)). pose proof (Z.div_mod a (pow10 (S k))). lia.
Qed.

Lemma parse_exp_none rest : number_end rest -> parse_exp rest = Some (0, rest).
Proof.
  destruct rest as [|c rest]; [done|]. simpl. intros (_ & _ & He & HE).
  by destruct (Ascii.eqb_spec c "e"), (Ascii.eqb_spec c "E").
Qed.

Lemma make_number_self (x : number) :
  make_number (mant x <? 0) (Z.abs (mant x)) (scale x) 0 = x.
Proof.
  unfold make_number.
  assert ((if mant x <? 0 then - Z.abs (mant x) else Z.abs (mant x)) = mant x) as ->.
  { destruct (Z.ltb_spec (mant x) 0); lia. }
  rewrite Z.sub_0_r. destruct (Z.leb_spec (Z.of_nat (scale x)) 0) as [H0|H0].
  - apply number_eq; simpl.
    + replace (Z.of_nat (scale x)) with 0 by lia. simpl. lia.
    + lia.
  - rewrite Nat2Z.id. apply normalize_number.
Qed.

(** The text of a number starts with a minus sign or a digit. *)
Lemma Number_toString_head x rest :
  exists c s, Number_toString x +:+ rest = String c s /\
              (c = "-"%char \/ is_digit c = true).
Proof.
  unfold Number_toString. destruct (mant x <? 0).
  - eexists _, _. rewrite append_cons. split; [reflexivity|by left].
  - rewrite append_nil.
    destruct (ndigits_spec (Z.abs (mant x) / pow10 (scale x))) as (_ & _ & Hk).
    { apply Z.div_pos; [lia|apply pow10_pos]. }
    destruct (ndigits _) as [|k]; [lia|]. rewrite fixed_head, !append_cons.
    eexists _, _. split; [reflexivity|right].
    apply digit_char_spec, Z.mod_pos_bound. lia.
Qed.

(** Parsing the text of a number gives the number back. *)
Lemma parse_number_toString x rest :
  number_end rest ->
  parse_number (Number_toString x +:+ rest) = Some (x, rest).
Proof.
  intros Hrest. unfold parse_number, Number_toString.
  set (a := Z.abs (mant x)). set (ip := a / pow10 (scale x)).
  assert (0 <= a) as Ha by lia.
  assert (0 <= ip) as Hip by (apply Z.div_pos; [lia|apply pow10_pos]).
  rewrite !append_assoc.
  assert (strip_minus ((if mant x <? 0 then "-" else "") +:+
            fixed (ndigits ip) ip +:+
            match scale x with O => "" | S _ => "." +:+ fixed (scale x) a end +:+ rest)
          = (mant x <? 0,
             fixed (ndigits ip) ip +:+
             match scale x with O => "" | S _ => "." +:+ fixed (scale x) a end +:+ rest))
    as ->.
  { destruct (mant x <? 0); [done|]. rewrite append_nil.
    destruct (ndigits_spec ip Hip) as (_ & _ & Hk).
    destruct (ndigits ip) as [|k]; [lia|]. rewrite fixed_head, append_cons.
    unfold strip_minus. rewrite is_digit_not; [done| |done].
    apply digit_char_spec, Z.mod_pos_bound. lia. }
  rewrite parse_int_fixed; [|done|].
  2:{ destruct (scale x); [rewrite append_nil; by apply number_end_no_digit|].
      by rewrite append_assoc, append_cons. }
  simpl mbind. unfold mbind, option_bind.
  destruct (scale x) as [|k] eqn:Ek.
  - rewrite append_nil, parse_frac_none, parse_exp_none by done.
    do 2 f_equal. pose proof (make_number_self x) as Hx. rewrite Ek in Hx.
    subst ip. change (pow10 0) with 1. by rewrite Z.div_1_r.
  - rewrite append_assoc, !append_cons, append_nil. subst ip.
    rewrite parse_frac_fixed, parse_exp_none by done.
    do 2 f_equal. pose proof (make_number_self x) as Hx. by rewrite Ek in Hx.
Qed.

(** Each escaped character is read back as itself. *)
Lemma parse_string_body_escape_char c s :
  parse_string_body (escape_char c +:+ s) =
  prepend (String c "") (parse_string_body s).
Proof. destruct c as [[] [] [] [] [] [] [] []]; reflexivity. Qed.

Lemma parse_string_body_escape t rest :
  parse_string_body (escape t +:+ String "034" rest) = Some (t, rest).
Proof.
  induction t as [|c t IH]; [done|].
  simpl escape. rewrite append_assoc, parse_string_body_escape_char, IH.
  reflexivity.
Qed.

Lemma stringify_array l : JSON_stringify (JArr l) = "[" +:+ elements l +:+ "]".
Proof. reflexivity. Qed.

Lemma stringify_review r rest :
  JSON_stringify (review_to_js r) +:+ rest = review_text r rest.
Proof.
  unfold review_text, review_to_js. cbn [JSON_stringify]. unfold quote.
  change (escape "rating") with "rating". change (escape "comment") with "comment".
  by rewrite !append_assoc, ?append_cons, ?append_nil, !append_assoc,
            ?append_cons, ?append_nil.
Qed.

Lemma parse_value_number f c s :
  c = "-"%char \/ is_digit c = true ->
  parse_value (S f) (String c s) =
  '(n, s1) ← parse_number (String c s); Some (JNum n, s1).
Proof.
  intros [->|H]; [reflexivity|].
  destruct c as [[] [] [] [] [] [] [] []]; try discriminate H; reflexivity.
Qed.

Lemma parse_value_rating f t :
  parse_value (S (S f))
    (String "{" (String "034" ("rating" +:+ String "034" (String ":" t)))) =
  '(v, s4) ← parse_value f t;
  match skip_ws s4 with
  | String "," s5 => parse_members f s5 (obj_set "rating" v [])
  | String "}" s5 => Some (JObj (obj_set "rating" v []), s5)
  | _ => None
  end.
Proof. reflexivity. Qed.

Lemma parse_members_comment f t acc :
  parse_members (S (S f))
    (String "034" ("comment" +:+ String "034" (String ":" (String "034" t)))) acc =
  '(c, s2) ← parse_string_body t;
  match skip_ws s2 with
  | String "," s5 => parse_members (S f) s5 (obj_set "comment" (JStr c) acc)
  | String "}" s5 => Some (JObj (obj_set "comment" (JStr c) acc), s5)
  | _ => None
  end.
Proof.
  change (parse_members (S (S f)) _ acc) with
    ('(v, s4) ← ('(c, s2) ← parse_string_body t; Some (JStr c, s2));
     match skip_ws s4 with
     | String "," s5 => parse_members (S f) s5 (obj_set "comment" v acc)
     | String "}" s5 => Some (JObj (obj_set "comment" v acc), s5)
     | _ => None
     end).
  by destruct (parse_string_body t) as [[c s2]|].
Qed.

(** A printed review is parsed back, whatever follows it. *)
Lemma parse_value_review f r rest :
  parse_value (S (S (S (S f)))) (review_text r rest) = Some (review_to_js r, rest).
Proof.
  unfold review_text. rewrite parse_value_rating.
  set (tail := String "," _).
  destruct (Number_toString_head (Review.rating r) tail) as (c & s & E & Hc).
  rewrite E, parse_value_number by done. rewrite <- E.
  rewrite parse_number_toString by (subst tail; simpl; by repeat split).
  subst tail. cbn [mbind option_bind skip_ws is_ws Ascii.eqb Bool.eqb orb].
  rewrite parse_members_comment, parse_string_body_escape.
  reflexivity.
Qed.

Lemma parse_elements_S f s acc :
  parse_elements (S f) s acc =
  '(v, s1) ← parse_value f s;
  match skip_ws s1 with
  | String "," s2 => parse_elements f s2 (acc ++ [v])
  | String "]" s2 => Some (JArr (acc ++ [v]), s2)
  | _ => None
  end.
Proof. reflexivity. Qed.

Lemma parse_elements_reviews l r acc f rest :
  parse_elements (S (S (S (S (S (length l + f)))))) 
    (elements (map review_to_js (r :: l)) +:+ String "]" rest) acc =
  Some (JArr (acc ++ map review_to_js (r :: l)), rest).
Proof.
  revert r acc. induction l as [|r' l IH]; intros r acc.
  - rewrite parse_elements_S. cbn [map elements].
    rewrite stringify_review, parse_value_review. reflexivity.
  - rewrite parse_elements_S.
    change (elements (map review_to_js (r :: r' :: l))) with
      (JSON_stringify (review_to_js r) +:+ "," +:+ elements (map review_to_js (r' :: l))).
    rewrite !append_assoc, stringify_review, parse_value_review.
    rewrite append_cons, append_nil.
    cbn [mbind option_bind skip_ws is_ws Ascii.eqb Bool.eqb orb].
    cbn [length Nat.add]. rewrite IH. by rewrite <- (assoc_L (++)).
Qed.

Lemma length_append (a b : string) :
  String.length (a +:+ b) = (String.length a + String.length b)%nat.
Proof. induction a as [|x a IH]; [done|]. rewrite append_cons. simpl. by rewrite IH. Qed.

Lemma length_stringify_review r :
  (1 <= String.length (JSON_stringify (review_to_js r)))%nat.
Proof.
  pose proof (f_equal String.length (stringify_review r "")) as H.
  rewrite length_append in H.
  remember (String.length (JSON_stringify (review_to_js r))) as n.
  unfold review_text in H. simpl in H. lia.
Qed.

Lemma length_elements (l : list Review.t) :
  (length l <= String.length (elements (map review_to_js l)))%nat.
Proof.
  induction l as [|r [|r' l] IH]; [done| |].
  - cbn [map elements]. pose proof (length_stringify_review r).
    simpl length. lia.
  - change (elements (map review_to_js (r :: r' :: l))) with
      (JSON_stringify (review_to_js r) +:+ "," +:+ elements (map review_to_js (r' :: l))).
    rewrite !length_append. pose proof (length_stringify_review r).
    simpl length in *. lia.
Qed.

(** [JSON.parse] undoes [JSON.stringify] on every review array. *)
Lemma JSON_parse_stringify_reviews (l : list Review.t) :
  JSON_parse (JSON_stringify (JArr (map review_to_js l))) =
  Ok (JArr (map review_to_js l)).
Proof.
  destruct l as [|r l]; [reflexivity|].
  unfold JSON_parse. rewrite stringify_array.
  pose proof (length_elements (r :: l)) as Hlen.
  set (text := "[" +:+ _).
  assert (exists f, (2 * String.length text + 2 =
                     S (S (S (S (S (S (length l + f)))))))%nat) as [f ->].
  { exists (2 * String.length text + 2 - 6 - length l)%nat.
    subst text. rewrite !length_append in *.
    change (String.length "[") with 1%nat. change (String.length "]") with 1%nat.
    simpl length in Hlen. lia. }
  subst text. rewrite append_cons, append_nil.
  assert (forall F s,
    parse_value (S F) (String "[" (elements (map review_to_js (r :: l)) +:+ s)) =
    parse_elements F (elements (map review_to_js (r :: l)) +:+ s) []) as Hopen.
  { intros F s. destruct l as [|r' l'].
    - cbn [map elements]. rewrite stringify_review. reflexivity.
    - change (elements (map review_to_js (r :: r' :: l'))) with
        (JSON_stringify (review_to_js r) +:+ "," +:+
         elements (map review_to_js (r' :: l'))).
      rewrite !append_assoc, stringify_review. reflexivity. }
  rewrite Hopen.
  change "]" with (String "]" ""). rewrite parse_elements_reviews.
  reflexivity.
Qed.

(** The model on a few texts: what is written for a review array, what is
    read from a text with white space, escapes and an exponent, and which
    texts are rejected. *)
Example JSON_stringify_reviews_example :
  JSON_stringify (reviews_to_js [review 0 7 "nice"; review 1 10 "a\b"]) =
  "[{" +:+ dq +:+ "rating" +:+ dq +:+ ":7," +:+ dq +:+ "comment" +:+ dq +:+ ":" +:+
  dq +:+ "nice" +:+ dq +:+ "},{" +:+ dq +:+ "rating" +:+ dq +:+ ":10," +:+
  dq +:+ "comment" +:+ dq +:+ ":" +:+ dq +:+ "a\\b" +:+ dq +:+ "}]".
Proof. by vm_compute. Qed.

Example JSON_parse_accepts :
  JSON_parse (" [ 1.50 , -0.25, 1e3, 12E-1, true, null, " +:+ dq +:+ "a\u0041\n" +:+
              dq +:+ ", {" +:+ dq +:+ "k" +:+ dq +:+ " : [] } ] ") =
  Ok (JArr [JNum (Num 15 1 I); JNum (Num (-25) 2 I); JNum (of_Z 1000);
            JNum (Num 12 1 I); JBool true; JNull;
            JStr (String "a" (String "A" (String "010" "")));
            JObj [("k", JArr [])]]).
Proof. by vm_compute. Qed.

Example JSON_parse_rejects :
  Forall (fun text => JSON_parse text = Throw SyntaxError)
    [""; "oops"; "{"; "[1,]"; "[01]"; "[1.]"; "nul"; "1 2"; "-"; "[1 2]";
     dq +:+ "open"; "{k:1}"; "undefined"; "NaN"].
Proof. repeat constructor. Qed.

Lemma as_Reviews_to_js (l : list Review.t) :
  as_Reviews (JArr (map review_to_js l)) = Some l.
Proof.
  simpl. induction l as [|[r c] l IH]; [done|].
  cbn [map mapM]. change (as_Review (review_to_js _)) with
    (Some {| Review.rating := r; Review.comment := c |}).
  simpl. by rewrite IH.
Qed.

End Json.

(* ===================================================================== *)
(** * The review store *)
(* ===================================================================== *)

Module Store.
Import JSFacts Json.

Lemma reviews_to_js_fields (R : list (obj Review.t)) :
  reviews_to_js R = JArr (map review_to_js (map fields R)).
Proof. unfold reviews_to_js. by rewrite map_map. Qed.

Lemma stringify_reviews_not_empty R :
  String.eqb (JSON_stringify (reviews_to_js R)) "" = false.
Proof. unfold reviews_to_js. by rewrite stringify_array. Qed.

Lemma allocate_fields base (l : list Review.t) : map fields (allocate base l) = l.
Proof.
  unfold allocate. revert base. induction l as [|r l IH]; intros base; [done|].
  simpl. f_equal. rewrite <- (IH (S base)) at 2. f_equal.
  apply imap_ext. intros i x _. simpl. f_equal. lia.
Qed.

Lemma load_save_roundtrip_reviews ls movieId (R : list (obj Review.t)) :
  loadReviewsFromLocalStorage (saveReviewsToLocalStorage ls movieId R) movieId =
    Ok (reviews_to_js R).
Proof.
  unfold loadReviewsFromLocalStorage, saveReviewsToLocalStorage, getItem, setItem.
  rewrite lookup_insert_eq. rewrite stringify_reviews_not_empty.
  rewrite reviews_to_js_fields. apply JSON_parse_stringify_reviews.
Qed.

(** C3: round trip.  Whatever was stored before, loading after saving a
    review collection [R] under the same movie id returns exactly [R]. *)
Theorem load_save_roundtrip ls movieId (R : list (obj Review.t)) :
  loadReviewsFromLocalStorage (saveReviewsToLocalStorage ls movieId R) movieId =
    Ok (reviews_to_js R) /\
  as_Reviews (reviews_to_js R) = Some (map fields R).
Proof.
  split; [apply load_save_roundtrip_reviews|].
  rewrite reviews_to_js_fields. apply as_Reviews_to_js.
Qed.

(** C2 as stated fails: a stored text that is not JSON makes load raise,
    and a stored JSON value that is not an array is returned as it is. *)
Lemma load_raises_on_malformed :
  loadReviewsFromLocalStorage {[ "movie-reviews-42" := "oops" ]} (of_Z 42) =
    Throw SyntaxError /\
  loadReviewsFromLocalStorage {[ "movie-reviews-42" := "{}" ]} (of_Z 42) =
    Ok (JObj []).
Proof. by vm_compute. Qed.

(** C2, amended: load returns the empty sequence when no entry exists under
    the key movie-reviews-<movieId>, or when the entry is the empty string;
    for every other stored text it returns what JSON.parse returns, so a
    stored review array comes back as it is, and a text that is not JSON
    makes load raise JSON.parse's SyntaxError to the caller. *)
Theorem load_spec ls movieId :
  storage_key (of_Z 42) = "movie-reviews-42" /\
  (ls !! storage_key movieId = None ->
     loadReviewsFromLocalStorage ls movieId = Ok (JArr [])) /\
  (ls !! storage_key movieId = Some "" ->
     loadReviewsFromLocalStorage ls movieId = Ok (JArr [])) /\
  (forall text, ls !! storage_key movieId = Some text -> text <> "" ->
     loadReviewsFromLocalStorage ls movieId = JSON_parse text) /\
  (forall R : list (obj Review.t),
     ls !! storage_key movieId = Some (JSON_stringify (reviews_to_js R)) ->
     loadReviewsFromLocalStorage ls movieId = Ok (reviews_to_js R)) /\
  (forall text, ls !! storage_key movieId = Some text -> text <> "" ->
     JSON_parse text = Throw SyntaxError ->
     loadReviewsFromLocalStorage ls movieId = Throw SyntaxError).
Proof.
  unfold loadReviewsFromLocalStorage, getItem.
  split; [by vm_compute|]. split; [by intros ->|]. split; [by intros ->|].
  assert (forall text, ls !! storage_key movieId = Some text -> text <> "" ->
            match ls !! storage_key movieId with
            | Some text => if String.eqb text "" then Ok (JArr []) else JSON_parse text
            | None => Ok (JArr [])
            end = JSON_parse text) as Hparse.
  { intros text -> Hne. by destruct (String.eqb_spec text ""). }
  split; [exact Hparse|]. split.
  - intros R HR. rewrite HR, stringify_reviews_not_empty.
    rewrite reviews_to_js_fields. apply JSON_parse_stringify_reviews.
  - intros text Ht Hne Hthrow. by rewrite (Hparse text Ht Hne).
Qed.

Lemma load_spec_witness :
  loadReviewsFromLocalStorage {[ "movie-reviews-42" := "[1,2" ]} (of_Z 42) =
    Throw SyntaxError.
Proof.
  apply (proj2 (proj2 (proj2 (proj2 (proj2
           (load_spec {[ "movie-reviews-42" := "[1,2" ]} (of_Z 42))))))
         "[1,2"); by vm_compute.
Defined.

(** Selecting a movie brings the page in sync with the store. *)
Lemma openModal_in_sync s movie C :
  loadReviewsFromLocalStorage (localStorage s) (Movie.id movie) =
    Ok (JArr (map review_to_js C)) ->
  exists s', step (OpenModal movie) s = Ok s' /\ in_sync s' movie C /\
             rating s' = rating s /\ comment s' = comment s /\
             localStorage s' = localStorage s.
Proof.
  intros Hload. simpl step. unfold loadReviewsEffect.
  cbn [openModal currentMovie setActiveTab setIsModalOpen setCurrentMovie
       localStorage next_addr].
  rewrite Hload. cbn [bind]. rewrite as_Reviews_to_js.
  eexists. split; [reflexivity|]. unfold in_sync. simpl.
  by rewrite allocate_fields.
Qed.

(** The state a valid submission leaves. *)
Lemma handleReviewSubmit_accepts s movie (n : Z) (c : string) :
  currentMovie s = Some movie ->
  rating s = Some (of_Z n) -> (1 <= n <= 10)%Z ->
  comment s = c -> c <> "" ->
  handleReviewSubmit s =
  let updatedReviews :=
    reviews s ++
    [Obj (next_addr s) {| Review.rating := of_Z n; Review.comment := c |}] in
  setErrorMessage "" (setComment "" (setRating None
    (setLocalStorage
       (saveReviewsToLocalStorage (localStorage s) (Movie.id movie) updatedReviews)
       (setReviews updatedReviews (allocated 1 s))))).
Proof.
  intros Hm Hr Hn Hc Hne. unfold handleReviewSubmit.
  rewrite Hm, Hr, Hc. destruct (String.eqb_spec c ""); [done|].
  cbn [negb].
  assert (num_ltb (of_Z n) one || num_gtb (of_Z n) ten = false) as ->; [|done].
  apply orb_false_iff. unfold num_gtb, num_ltb. simpl.
  split; apply Z.ltb_ge; change (pow10 0) with 1%Z; lia.
Qed.

(** From any page state: select a movie whose stored collection is [C],
    type a valid rating and a comment, submit; the store then holds
    [C ++ [r]] for that movie and the inputs are reset. *)
Lemma submit_after_open s movie C (n : Z) (c : string) :
  loadReviewsFromLocalStorage (localStorage s) (Movie.id movie) =
    Ok (JArr (map review_to_js C)) ->
  (1 <= n <= 10)%Z -> c <> "" ->
  exists s',
    run [OpenModal movie; RatingChange (of_Z n); CommentChange c; ReviewSubmit] s
      = Ok s' /\
    loadReviewsFromLocalStorage (localStorage s') (Movie.id movie) =
      Ok (JArr (map review_to_js
                  (C ++ [{| Review.rating := of_Z n; Review.comment := c |}]))) /\
    rating s' = None /\ comment s' = "" /\ errorMessage s' = "".
Proof.
  intros Hload Hn Hc.
  destruct (openModal_in_sync s movie C Hload)
    as (s1 & Hstep & (Hm & HC & _) & _).
  cbn [run]. rewrite Hstep. cbn [bind step].
  set (s2 := setComment c (handleRatingChange (of_Z n) s1)).
  assert (currentMovie s2 = Some movie /\ reviews s2 = reviews s1)
    as [Hm2 HR2].
  { subst s2. unfold handleRatingChange. by destruct (_ || _). }
  assert (rating s2 = Some (of_Z n) /\ comment s2 = c) as [Hr2 Hc2] by done.
  clearbody s2. eexists. split; [reflexivity|].
  rewrite (handleReviewSubmit_accepts s2 movie n c) by done.
  cbn. repeat split. rewrite load_save_roundtrip_reviews.
  by rewrite reviews_to_js_fields, map_app, HR2, HC.
Qed.

(** C1: with a movie selected and its stored collection [C] loaded,
    submitting a valid review (an integer rating in [1,10], a comment that
    is not empty) appends it: the collection saved, and loaded again for
    that movie, is [C ++ [r]], in memory too; the rating input is reset to
    null, the comment input to the empty string, and the error message is
    cleared. *)
Theorem handleReviewSubmit_appends s movie C (n : Z) (c : string) :
  in_sync s movie C ->
  rating s = Some (of_Z n) -> (1 <= n <= 10)%Z ->
  comment s = c -> c <> "" ->
  in_sync (handleReviewSubmit s) movie
    (C ++ [{| Review.rating := of_Z n; Review.comment := c |}]) /\
  rating (handleReviewSubmit s) = None /\
  comment (handleReviewSubmit s) = "" /\
  errorMessage (handleReviewSubmit s) = "".
Proof.
  intros (Hm & HC & _) Hr Hn Hc Hne.
  rewrite (handleReviewSubmit_accepts s movie n c) by done.
  unfold in_sync. cbn. rewrite map_app, HC. repeat split; [done|].
  rewrite load_save_roundtrip_reviews.
  by rewrite reviews_to_js_fields, map_app, HC.
Qed.

Lemma handleReviewSubmit_appends_witness :
  loadReviewsFromLocalStorage
    (localStorage
       (handleReviewSubmit
          (setComment "nice"
             (handleRatingChange (of_Z 7) (openModal example_movie (initial ∅))))))
    (of_Z 42) =
  Ok (JArr [review_to_js {| Review.rating := of_Z 7; Review.comment := "nice" |}]).
Proof.
  assert (in_sync
            (setComment "nice"
               (handleRatingChange (of_Z 7) (openModal example_movie (initial ∅))))
            example_movie []) as Hsync by (by vm_compute).
  assert (1 <= 7 <= 10)%Z as Hn by lia.
  assert ("nice" <> "") as Hc by discriminate.
  pose proof (handleReviewSubmit_appends _ example_movie [] 7 "nice"
                Hsync eq_refl Hn eq_refl Hc) as [(_ & _ & H) _].
  exact H.
Defined.

End Store.
